(** * Markov-chain ABR streaming simulator: model and verification

    Shallow embedding of [markov-chain.py]: the chain sampler
    [simulate_throughput], the trailing moving average
    [get_smoothed_throughput], the buffer/stall replay [simulate_playback],
    the Monte Carlo driver [monte_carlo] and the sweep [parameter_sweep].

    Numbers are exact rationals ([Q]); [statistics.mean] itself works on
    exact fractions, and IEEE rounding of the remaining float operations is
    outside the model.  The theorems stated on it are those that rounding
    does not touch: refinements, whose two sides round alike, bounds that
    monotone rounding keeps, and statements about exceptions, lengths, order
    and draws.  Where the outcome turns on rounding, the step of the chain
    is given once more over an arbitrary arithmetic and read in binary64
    with Rocq's primitive floats.  Python exceptions are values of [exn]; a
    computation that may raise returns a [result].  The ambient generator
    behind [random.random()] is an explicit stream of draws with a read
    position. *)

From Stdlib Require Import ZArith QArith Lia Lqa.
From Stdlib Require Import String.
From Stdlib Require PrimFloat FloatOps SpecFloat.
From stdpp Require Import base list.

Set Default Proof Using "Type".

(** ** Exceptions and results *)

(** The first three are the built-in exceptions the Python code can raise.
    The last three are the error names of the specification's taxonomy; no
    statement of [markov-chain.py] raises them. *)
Inductive exn : Set :=
  | ZeroDivisionError
  | StatisticsError
  | IndexError
  | ConfigurationError
  | InvalidStateError
  | InsufficientSamplesError.

Inductive result (A : Type) : Type :=
  | Ok (a : A)
  | Raise (e : exn).
Arguments Ok {A} a.
Arguments Raise {A} e.

#[global] Instance result_ret : MRet result := @Ok.
#[global] Instance result_bind : MBind result := λ A B f m,
  match m with
  | Ok a => f a
  | Raise e => Raise e
  end.

(** [mapM]: evaluate [f] on each element in order, stop at the first raise. *)
Fixpoint result_mapM {A B} (f : A → result B) (l : list A) : result (list B) :=
  match l with
  | [] => Ok []
  | x :: l' => y ← f x; ys ← result_mapM f l'; Ok (y :: ys)
  end.

(** ** The Python primitives the simulator uses *)

Module Py.

(** [x / y] on numbers. *)
Definition truediv (x y : Q) : result Q :=
  if Qeq_bool y 0 then Raise ZeroDivisionError else Ok (x / y)%Q.

(** [l[i]] for a non-negative index. *)
Definition getitem {A} (l : list A) (i : nat) : result A :=
  match l !! i with
  | Some x => Ok x
  | None => Raise IndexError
  end.

(** Normalisation of one bound of [l[start:stop]]: a negative bound counts
    from the end, and every bound is clamped to [0 .. len]. *)
Definition slice_index (len : nat) (i : Z) : nat :=
  if (i <? 0)%Z then Z.to_nat (Z.max 0 (i + Z.of_nat len))
  else Nat.min (Z.to_nat i) len.

(** [l[start:stop]]. *)
Definition slice {A} (l : list A) (start stop : Z) : list A :=
  let lo := slice_index (length l) start in
  let hi := slice_index (length l) stop in
  take (hi - lo) (drop lo l).

(** [range(n)]: empty for [n <= 0]. *)
Definition range (n : Z) : list nat := seq 0 (Z.to_nat n).

(** [enumerate(l)]. *)
Fixpoint enumerate_from {A} (i : nat) (l : list A) : list (nat * A) :=
  match l with
  | [] => []
  | x :: l' => (i, x) :: enumerate_from (S i) l'
  end.
Definition enumerate {A} (l : list A) : list (nat * A) := enumerate_from 0 l.

(** Left-to-right sum, starting from 0. *)
Definition sum (data : list Q) : Q := fold_left Qplus data 0%Q.

(** [statistics.mean(data)]: exact mean; raises on no data. *)
Definition mean (data : list Q) : result Q :=
  match data with
  | [] => Raise StatisticsError
  | _ => Ok (sum data / inject_Z (Z.of_nat (length data)))%Q
  end.

(** [statistics.stdev(data)]: square root of the sample variance
    (divisor [n - 1]); raises with fewer than two data points.  The square
    root is not a rational operation and is taken as a parameter. *)
Definition stdev (sqrt : Q → Q) (data : list Q) : result Q :=
  match data with
  | [] | [_] => Raise StatisticsError
  | _ =>
      let n := inject_Z (Z.of_nat (length data)) in
      let c := (sum data / n)%Q in
      let ss := sum (map (λ x, (x - c) * (x - c))%Q data) in
      Ok (sqrt (ss / (n - 1))%Q)
  end.

End Py.

(** ** [get_smoothed_throughput] *)

Definition get_smoothed_throughput (trace : list Q) (idx window : Z) : result Q :=
  let start := Z.max 0 (idx - window + 1) in
  Py.mean (Py.slice trace start (idx + 1)).

(** ** [simulate_playback] *)

(** The two variables the loop updates. *)
Record playback_state : Type := PlaybackState {
  buffer_sec : Q;
  total_stall : Q
}.

(** One iteration of [for i, bw in enumerate(trace)]. *)
Definition playback_body (trace : list Q) (segment_length : Q) (smooth_window : Z)
    (st : playback_state) (i : nat) (bw : Q) : result playback_state :=
  quality ← get_smoothed_throughput trace (Z.of_nat i) smooth_window;
  download_time ← Py.truediv (quality * segment_length)%Q bw;
  let st' :=
    if Qle_bool download_time (buffer_sec st)
    then PlaybackState (buffer_sec st - download_time)%Q (total_stall st)
    else
      let stall := (download_time - buffer_sec st)%Q in
      PlaybackState 0%Q (total_stall st + stall)%Q in
  Ok (PlaybackState (buffer_sec st' + segment_length)%Q (total_stall st')).

Fixpoint playback_loop (trace : list Q) (segment_length : Q) (smooth_window : Z)
    (st : playback_state) (items : list (nat * Q)) : result playback_state :=
  match items with
  | [] => Ok st
  | (i, bw) :: items' =>
      st' ← playback_body trace segment_length smooth_window st i bw;
      playback_loop trace segment_length smooth_window st' items'
  end.

Definition simulate_playback (trace : list Q) (segment_length : Q) (smooth_window : Z)
    : result (Q * Q) :=
  let st0 := PlaybackState (segment_length * inject_Z smooth_window)%Q 0%Q in
  st ← playback_loop trace segment_length smooth_window st0 (Py.enumerate trace);
  qualities ← result_mapM
    (λ i : nat, get_smoothed_throughput trace (Z.of_nat i) smooth_window)
    (Py.range (Z.of_nat (length trace)));
  avg_bitrate ← Py.mean qualities;
  Ok (avg_bitrate, total_stall st).

(** ** The random source *)

(** [random.random()] reads the next draw of the stream and advances. *)
Record rng : Type := Rng {
  draws : nat → Q;
  position : nat
}.

Definition random (g : rng) : Q * rng :=
  (draws g (position g), Rng (draws g) (S (position g))).

(** ** [simulate_throughput] *)

(** [r < cum] *)
Definition Qlt_bool (x y : Q) : bool := negb (Qle_bool y x).

(** The inner [for j, p in enumerate(P[current])]: [Some j] when the loop
    breaks at index [j], [None] when the row is exhausted without a break. *)
Fixpoint scan_row (r : Q) (cum : Q) (j : nat) (row : list Q) : option nat :=
  match row with
  | [] => None
  | p :: row' =>
      let cum' := (cum + p)%Q in
      if Qlt_bool r cum' then Some j else scan_row r cum' (S j) row'
  end.

Record sampler_state : Type := SamplerState {
  current : nat;
  trace_so_far : list Q;
  generator : rng
}.

(** One iteration of [for _ in range(num_steps)]. *)
Definition sampler_body (P : list (list Q)) (states : list Q) (st : sampler_state)
    : result sampler_state :=
  v ← Py.getitem states (current st);
  let '(r, g') := random (generator st) in
  row ← Py.getitem P (current st);
  let current' :=
    match scan_row r 0%Q 0 row with
    | Some j => j
    | None => current st
    end in
  Ok (SamplerState current' (trace_so_far st ++ [v]) g').

Fixpoint sampler_loop (P : list (list Q)) (states : list Q) (n : nat)
    (st : sampler_state) : result sampler_state :=
  match n with
  | O => Ok st
  | S n' => st' ← sampler_body P states st; sampler_loop P states n' st'
  end.

Definition simulate_throughput (num_steps : Z) (P : list (list Q)) (states : list Q)
    (g : rng) : result (list Q * rng) :=
  st ← sampler_loop P states (length (Py.range num_steps)) (SamplerState 0 [] g);
  Ok (trace_so_far st, generator st).

(** ** [monte_carlo] *)

Fixpoint monte_carlo_loop (P : list (list Q)) (states : list Q) (num_steps : Z)
    (segment_length : Q) (smooth_window : Z) (n : nat)
    (results : list (Q * Q)) (g : rng) : result (list (Q * Q) * rng) :=
  match n with
  | O => Ok (results, g)
  | S n' =>
      '(trace, g') ← simulate_throughput num_steps P states g;
      outcome ← simulate_playback trace segment_length smooth_window;
      monte_carlo_loop P states num_steps segment_length smooth_window n'
        (results ++ [outcome]) g'
  end.

Definition monte_carlo (P : list (list Q)) (states : list Q) (num_steps : Z)
    (segment_length : Q) (smooth_window : Z) (runs : Z) (g : rng)
    : result (list (Q * Q) * rng) :=
  monte_carlo_loop P states num_steps segment_length smooth_window
    (length (Py.range runs)) [] g.

(** ** [parameter_sweep] *)

(** A row handed to [writer.writerow]. *)
Inductive csv_row : Type :=
  | HeaderRow (columns : list string)
  | DataRow (seg_len : Q) (w : Z) (mean_bitrate sd_bitrate mean_stall sd_stall : Q).

Definition sweep_header : csv_row :=
  HeaderRow ["segment_length"; "smooth_window"; "mean_bitrate"; "sd_bitrate";
             "mean_stall"; "sd_stall"]%string.

Section Sweep.

(** Floating-point square root used by [statistics.stdev]. *)
Variable sqrt : Q → Q.

(** The body of the inner loop up to the argument of [writer.writerow]. *)
Definition sweep_cell (P : list (list Q)) (states : list Q) (num_steps : Z)
    (runs : Z) (seg_len : Q) (w : Z) (g : rng) : result (csv_row * rng) :=
  '(data, g') ← monte_carlo P states num_steps seg_len w runs g;
  let qs := map fst data in
  let stl := map snd data in
  mean_qs ← Py.mean qs;
  sd_qs ← Py.stdev sqrt qs;
  mean_stl ← Py.mean stl;
  sd_stl ← Py.stdev sqrt stl;
  Ok (DataRow seg_len w mean_qs sd_qs mean_stl sd_stl, g').

(** [for w in smooth_windows]: the rows written so far stay in the file
    when a cell raises. *)
Fixpoint sweep_windows (P : list (list Q)) (states : list Q) (num_steps : Z)
    (runs : Z) (seg_len : Q) (smooth_windows : list Z)
    (file : list csv_row) (g : rng) : list csv_row * result rng :=
  match smooth_windows with
  | [] => (file, Ok g)
  | w :: ws =>
      match sweep_cell P states num_steps runs seg_len w g with
      | Ok (row, g') =>
          sweep_windows P states num_steps runs seg_len ws (file ++ [row]) g'
      | Raise e => (file, Raise e)
      end
  end.

(** [for seg_len in segment_lengths]. *)
Fixpoint sweep_segments (P : list (list Q)) (states : list Q) (num_steps : Z)
    (runs : Z) (segment_lengths : list Q) (smooth_windows : list Z)
    (file : list csv_row) (g : rng) : list csv_row * result rng :=
  match segment_lengths with
  | [] => (file, Ok g)
  | seg_len :: segs =>
      match sweep_windows P states num_steps runs seg_len smooth_windows file g with
      | (file', Ok g') =>
          sweep_segments P states num_steps runs segs smooth_windows file' g'
      | (file', Raise e) => (file', Raise e)
      end
  end.

(** The rows of [sweep_results.csv] and how the call ended. *)
Definition parameter_sweep (P : list (list Q)) (states : list Q) (num_steps : Z)
    (segment_lengths : list Q) (smooth_windows : list Z) (runs : Z) (g : rng)
    : list csv_row * result rng :=
  sweep_segments P states num_steps runs segment_lengths smooth_windows
    [sweep_header] g.

End Sweep.

(** ** Specification-side notions *)

(** Sum of a list, written by recursion on the list. *)
Definition total (xs : list Q) : Q := foldr Qplus 0%Q xs.

(** [q] is the arithmetic mean of the non-empty list [xs]. *)
Definition arith_mean_of (xs : list Q) (q : Q) : Prop :=
  xs ≠ [] ∧ (q * inject_Z (Z.of_nat (length xs)) == total xs)%Q.

(** The elements [trace[lo]], ..., [trace[hi]], both ends included. *)
Definition inclusive_window (trace : list Q) (lo hi : nat) : list Q :=
  omap (λ k, trace !! k) (seq lo (S hi - lo)).

(** The buffer policy as the specification words it: after [i] segments the
    player holds [buf] seconds and has stalled for [stall] seconds. *)
Inductive playback_run (trace : list Q) (segment_length : Q) (smoothing_window : Z)
    : nat → Q → Q → Prop :=
  | run_start :
      playback_run trace segment_length smoothing_window 0
        (segment_length * inject_Z smoothing_window)%Q 0%Q
  | run_covered i buf stall bw quality :
      playback_run trace segment_length smoothing_window i buf stall →
      trace !! i = Some bw → ¬ (bw == 0)%Q →
      get_smoothed_throughput trace (Z.of_nat i) smoothing_window = Ok quality →
      (quality * segment_length / bw <= buf)%Q →
      playback_run trace segment_length smoothing_window (S i)
        (buf - quality * segment_length / bw + segment_length)%Q stall
  | run_stalled i buf stall bw quality :
      playback_run trace segment_length smoothing_window i buf stall →
      trace !! i = Some bw → ¬ (bw == 0)%Q →
      get_smoothed_throughput trace (Z.of_nat i) smoothing_window = Ok quality →
      (buf < quality * segment_length / bw)%Q →
      playback_run trace segment_length smoothing_window (S i)
        (0 + segment_length)%Q
        (stall + (quality * segment_length / bw - buf))%Q.

(** Cumulative probability of index [j] in a row: [p_0 + ... + p_j]. *)
Definition cum_prob (row : list Q) (j : nat) : Q := total (take (S j) row).

(** [j] is the first index of the row whose cumulative probability strictly
    exceeds [r]: [r] lies in the half-open interval [[cum_{j-1}, cum_j)]. *)
Definition first_exceeding (row : list Q) (r : Q) (j : nat) : Prop :=
  j < length row ∧ (r < cum_prob row j)%Q ∧ ∀ k, k < j → (cum_prob row k <= r)%Q.

(** No cumulative probability of the row exceeds [r]. *)
Definition uncovered (row : list Q) (r : Q) : Prop :=
  ∀ j, j < length row → (cum_prob row j <= r)%Q.

(** The state after one draw [r] from state [c]. *)
Inductive transition (row : list Q) (r : Q) (c : nat) : nat → Prop :=
  | transition_to j : first_exceeding row r j → transition row r c j
  | transition_stay : uncovered row r → transition row r c c.

(** The chain as the specification words it: [chain_run P states draw t c tr]
    when, after [t] steps from state 0 with the draws [draw 0], [draw 1], ...,
    the chain is in state [c] and has emitted the trace [tr]. *)
Inductive chain_run (P : list (list Q)) (states : list Q) (draw : nat → Q)
    : nat → nat → list Q → Prop :=
  | chain_start : chain_run P states draw 0 0 []
  | chain_step t c c' tr v row :
      chain_run P states draw t c tr →
      states !! c = Some v → P !! c = Some row →
      transition row (draw t) c c' →
      chain_run P states draw (S t) c' (tr ++ [v]).

(** The sweep grid in nested order: segment length outer, window inner. *)
Definition sweep_grid (segment_lengths : list Q) (smooth_windows : list Z)
    : list (Q * Z) :=
  flat_map (λ seg_len, map (λ w, (seg_len, w)) smooth_windows) segment_lengths.

(** The (segment_length, smooth_window) pair a data row is written for. *)
Definition row_key (row : csv_row) : option (Q * Z) :=
  match row with
  | HeaderRow _ => None
  | DataRow seg_len w _ _ _ _ => Some (seg_len, w)
  end.

(** [row] is the data row of the grid cell [cell]. *)
Definition keyed (row : csv_row) (cell : Q * Z) : Prop := row_key row = Some cell.

(** A configuration the sweep accepts: a non-empty set of non-zero states,
    one row per state and no row longer than the set of states, at least one
    step, at least two runs, and windows of at least 1. *)
Definition valid_sweep (P : list (list Q)) (states : list Q) (num_steps : Z)
    (smooth_windows : list Z) (runs : Z) : Prop :=
  states ≠ [] ∧ Forall (λ v, ¬ (v == 0)%Q) states
  ∧ Forall (λ row : list Q, length row ≤ length states) P
  ∧ length states ≤ length P
  ∧ (1 ≤ num_steps)%Z ∧ (2 ≤ runs)%Z
  ∧ Forall (λ w, (1 ≤ w)%Z) smooth_windows.

(** First index of the smoothing window that ends at index [i]. *)
Definition window_start (i : nat) (window : Z) : nat :=
  Z.to_nat (Z.max 0 (Z.of_nat i - window + 1)).

(** The loop state after the first [n] elements of the trace. *)
Definition playback_prefix (trace : list Q) (seg : Q) (w : Z) (n : nat)
    : result playback_state :=
  playback_loop trace seg w (PlaybackState (seg * inject_Z w)%Q 0%Q)
    (Py.enumerate (take n trace)).

(** A data row whose mean bitrate lies in [[lo, hi]] and whose mean stall
    time is not negative; the header row qualifies as it is. *)
Definition row_within (lo hi : Q) (row : csv_row) : Prop :=
  match row with
  | HeaderRow _ => True
  | DataRow _ _ mean_bitrate _ mean_stall _ =>
      (lo <= mean_bitrate <= hi)%Q ∧ (0 <= mean_stall)%Q
  end.

(** ** The chain step over an arbitrary arithmetic *)

(** The step of [simulate_throughput] compares the draw with a running sum
    that the code computes in double precision.  Here the step is written
    once more with the number type, its addition and its comparison left
    open, so that it can be read in binary64 as well as in exact rationals.
    [value] is the type of the entries of [states]. *)

Section Arithmetic.

Variable num : Type.
Variable value : Type.
Variable zero : num.
Variable add : num → num → num.
Variable ltb : num → num → bool.

(** The inner [for j, p in enumerate(P[current])] with [cum += p] and
    [if r < cum] read in the given arithmetic. *)
Fixpoint scan_row_in (r cum : num) (j : nat) (row : list num) : option nat :=
  match row with
  | [] => None
  | p :: row' =>
      let cum' := add cum p in
      if ltb r cum' then Some j else scan_row_in r cum' (S j) row'
  end.

Record rng_in : Type := RngIn {
  draws_in : nat → num;
  position_in : nat
}.

Definition random_in (g : rng_in) : num * rng_in :=
  (draws_in g (position_in g), RngIn (draws_in g) (S (position_in g))).

Record sampler_state_in : Type := SamplerStateIn {
  current_in : nat;
  trace_so_far_in : list value;
  generator_in : rng_in
}.

(** One iteration of [for _ in range(num_steps)]. *)
Definition sampler_body_in (P : list (list num)) (states : list value)
    (st : sampler_state_in) : result sampler_state_in :=
  v ← Py.getitem states (current_in st);
  let '(r, g') := random_in (generator_in st) in
  row ← Py.getitem P (current_in st);
  let current' :=
    match scan_row_in r zero 0 row with
    | Some j => j
    | None => current_in st
    end in
  Ok (SamplerStateIn current' (trace_so_far_in st ++ [v]) g').


End Arithmetic.

(** The generator and the sampler state of the exact model, read as those of
    the step above in the rationals. *)
Definition rng_exact (g : rng) : rng_in Q := RngIn Q (draws g) (position g).

Definition sampler_state_exact (st : sampler_state) : sampler_state_in Q Q :=
  SamplerStateIn Q Q (current st) (trace_so_far st) (rng_exact (generator st)).

(** *** Binary64, the arithmetic of Python's [float] *)




(** The doubles written [0.1], [0.2], ... in Python, and the largest double
    below 1, which is the largest value [random.random()] returns. *)
Module DoubleLiterals.
Import PrimFloat.
Set Warnings "-inexact-float".
Set Warnings "+inexact-float".
End DoubleLiterals.

(** * Proofs *)

(** ** Python primitives *)

Lemma sum_from (xs : list Q) (a : Q) : (fold_left Qplus xs a == a + total xs)%Q.
Proof.
  revert a. induction xs as [|x xs IH]; intros a; simpl.
  - unfold total; simpl. ring.
  - rewrite IH. unfold total; simpl. ring.
Qed.

Lemma sum_total (xs : list Q) : (Py.sum xs == total xs)%Q.
Proof. unfold Py.sum. rewrite sum_from. ring. Qed.

Lemma mean_ok (xs : list Q) : xs ≠ [] → ∃ q, Py.mean xs = Ok q ∧ arith_mean_of xs q.
Proof.
  intros Hne. destruct xs as [|x xs]; [done|].
  eexists; split; [reflexivity|]. split; [done|].
  rewrite <- sum_total.
  set (n := inject_Z (Z.of_nat (length (x :: xs)))).
  assert (Hn : ¬ (n == 0)%Q).
  { unfold n. change 0%Q with (inject_Z 0). rewrite inject_Z_injective.
    simpl length. lia. }
  field. exact Hn.
Qed.

Lemma mean_raises (xs : list Q) e : Py.mean xs = Raise e → xs = [] ∧ e = StatisticsError.
Proof. destruct xs; simpl; [intros [= <-]; done | discriminate]. Qed.

Lemma arith_mean_singleton (x q : Q) : arith_mean_of [x] q → (q == x)%Q.
Proof.
  intros [_ H]. unfold total in H. simpl in H.
  change (inject_Z 1) with 1%Q in H. rewrite Qmult_1_r, Qplus_0_r in H. exact H.
Qed.

Lemma slice_in_range {A} (l : list A) (lo hi : nat) :
  lo ≤ hi → hi ≤ length l →
  Py.slice l (Z.of_nat lo) (Z.of_nat hi) = take (hi - lo) (drop lo l).
Proof.
  intros Hlo Hhi. unfold Py.slice, Py.slice_index.
  destruct (Z.ltb_spec (Z.of_nat lo) 0); [lia|].
  destruct (Z.ltb_spec (Z.of_nat hi) 0); [lia|].
  rewrite !Nat2Z.id. rewrite !Nat.min_l by lia. reflexivity.
Qed.

Lemma take_drop_window (trace : list Q) (lo n : nat) :
  lo + n ≤ length trace →
  take n (drop lo trace) = omap (λ k, trace !! k) (seq lo n).
Proof.
  revert lo. induction n as [|n IH]; intros lo Hle; simpl.
  - by rewrite take_0.
  - destruct (lookup_lt_is_Some_2 trace lo) as [x Hx]; [lia|].
    rewrite Hx. rewrite (drop_S _ _ _ Hx). simpl. f_equal. apply IH. lia.
Qed.

(** ** The smoothed estimate *)

Lemma smoothed_slice (trace : list Q) (i : nat) (window : Z) :
  i < length trace → (1 ≤ window)%Z →
  get_smoothed_throughput trace (Z.of_nat i) window
  = Py.mean (inclusive_window trace (window_start i window) i).
Proof.
  intros Hi Hw. unfold get_smoothed_throughput, inclusive_window, window_start.
  set (start := Z.max 0 (Z.of_nat i - window + 1)).
  assert (Hs : (0 ≤ start ≤ Z.of_nat i)%Z) by (unfold start; lia).
  replace start with (Z.of_nat (Z.to_nat start)) at 1 by lia.
  replace (Z.of_nat i + 1)%Z with (Z.of_nat (S i)) by lia.
  rewrite slice_in_range by lia.
  rewrite take_drop_window by lia. reflexivity.
Qed.

Lemma inclusive_window_length (trace : list Q) (lo hi : nat) :
  lo ≤ hi → hi < length trace → length (inclusive_window trace lo hi) = S hi - lo.
Proof.
  intros Hlo Hhi. unfold inclusive_window.
  rewrite <- take_drop_window by lia.
  rewrite length_take, length_drop. lia.
Qed.

Lemma smoothed_ok (trace : list Q) (i : nat) (window : Z) :
  i < length trace → (1 ≤ window)%Z →
  ∃ q, get_smoothed_throughput trace (Z.of_nat i) window = Ok q
       ∧ arith_mean_of (inclusive_window trace (window_start i window) i) q.
Proof.
  intros Hi Hw. rewrite smoothed_slice by done.
  apply mean_ok. intros Hnil.
  assert (Hlen := inclusive_window_length trace (window_start i window) i).
  rewrite Hnil in Hlen. simpl in Hlen. unfold window_start in *. lia.
Qed.

(** C8. For an index [i] inside the trace and a window of at least 1,
    [get_smoothed_throughput trace i window] returns the arithmetic mean of
    [trace[max(0, i-window+1)]], ..., [trace[i]] (both ends included); at
    index 0 this is [trace[0]] for every window, and with window 1 it is
    [trace[i]]. *)
Theorem smoothed_is_window_mean (trace : list Q) (i : nat) (window : Z) :
  i < length trace → (1 ≤ window)%Z →
  ∃ q, get_smoothed_throughput trace (Z.of_nat i) window = Ok q
    ∧ arith_mean_of
        (inclusive_window trace (Z.to_nat (Z.max 0 (Z.of_nat i - window + 1))) i) q
    ∧ (i = 0 → ∀ x, trace !! 0 = Some x → (q == x)%Q)
    ∧ (window = 1%Z → ∀ x, trace !! i = Some x → (q == x)%Q).
Proof.
  intros Hi Hw. destruct (smoothed_ok trace i window Hi Hw) as (q & Hq & Hmean).
  exists q. split; [exact Hq|]. split; [exact Hmean|].
  unfold window_start in Hmean. split.
  - intros -> x Hx. apply arith_mean_singleton.
    replace (Z.to_nat (Z.max 0 (Z.of_nat 0 - window + 1))) with 0 in Hmean by lia.
    unfold inclusive_window in Hmean. simpl in Hmean. rewrite Hx in Hmean.
    exact Hmean.
  - intros -> x Hx. apply arith_mean_singleton.
    replace (Z.to_nat (Z.max 0 (Z.of_nat i - 1 + 1))) with i in Hmean by lia.
    unfold inclusive_window in Hmean.
    replace (S i - i) with 1 in Hmean by lia. simpl in Hmean.
    rewrite Hx in Hmean. exact Hmean.
Qed.

Lemma smoothed_is_window_mean_witness :
  2 < length [500; 1000; 2000]%Q ∧ (1 ≤ 2)%Z ∧
  ∃ q, get_smoothed_throughput [500; 1000; 2000]%Q (Z.of_nat 2) 2 = Ok q
    ∧ arith_mean_of
        (inclusive_window [500; 1000; 2000]%Q (Z.to_nat (Z.max 0 (Z.of_nat 2 - 2 + 1))) 2) q
    ∧ (2 = 0 → ∀ x, [500; 1000; 2000]%Q !! 0 = Some x → (q == x)%Q)
    ∧ (2%Z = 1%Z → ∀ x, [500; 1000; 2000]%Q !! 2 = Some x → (q == x)%Q).
Proof.
  split; [simpl; lia|]. split; [lia|].
  apply (smoothed_is_window_mean [500; 1000; 2000]%Q 2 2); [simpl; lia | lia].
Defined.

(** ** Playback *)

Lemma bind_Ok {A B} (f : A → result B) (a : A) : (Ok a ≫= f) = f a.
Proof. reflexivity. Qed.

Lemma bind_Raise {A B} (f : A → result B) (e : exn) : (Raise e ≫= f) = Raise e.
Proof. reflexivity. Qed.

Lemma bind_inv_Ok {A B} (m : result A) (f : A → result B) (b : B) :
  (m ≫= f) = Ok b → ∃ a, m = Ok a ∧ f a = Ok b.
Proof. destruct m as [a|e]; [eauto | discriminate]. Qed.

Lemma truediv_Ok (x y q : Q) :
  Py.truediv x y = Ok q ↔ ¬ (y == 0)%Q ∧ q = (x / y)%Q.
Proof.
  unfold Py.truediv. destruct (Qeq_bool y 0) eqn:E.
  - apply Qeq_bool_iff in E. split; [discriminate | tauto].
  - apply Qeq_bool_neq in E. split; [intros [= <-]; done | intros [_ ->]; done].
Qed.

Lemma truediv_zero (x y : Q) : (y == 0)%Q → Py.truediv x y = Raise ZeroDivisionError.
Proof. intros H. unfold Py.truediv. apply Qeq_bool_iff in H. by rewrite H. Qed.

Lemma Qle_bool_false (x y : Q) : Qle_bool x y = false ↔ (y < x)%Q.
Proof.
  rewrite <- Bool.not_true_iff_false, Qle_bool_iff. split.
  - apply Qnot_le_lt.
  - apply Qlt_not_le.
Qed.

Lemma playback_body_run trace seg w i buf stall bw st' :
  playback_run trace seg w i buf stall → trace !! i = Some bw →
  playback_body trace seg w (PlaybackState buf stall) i bw = Ok st' →
  playback_run trace seg w (S i) (buffer_sec st') (total_stall st').
Proof.
  intros Hrun Hbw Hbody. unfold playback_body in Hbody.
  apply bind_inv_Ok in Hbody as (q & Hq & Hbody).
  apply bind_inv_Ok in Hbody as (dt & Hdt & Hbody).
  apply truediv_Ok in Hdt as [Hnz ->]. simpl in Hbody.
  destruct (Qle_bool _ buf) eqn:E; injection Hbody as <-; simpl.
  - apply Qle_bool_iff in E. by eapply run_covered.
  - apply Qle_bool_false in E. by eapply run_stalled.
Qed.

Lemma playback_run_body trace seg w i buf' stall' bw :
  playback_run trace seg w (S i) buf' stall' → trace !! i = Some bw →
  ∃ buf stall, playback_run trace seg w i buf stall ∧
    playback_body trace seg w (PlaybackState buf stall) i bw
    = Ok (PlaybackState buf' stall').
Proof.
  intros Hrun Hbw. inversion Hrun as [|i' b s bw' q Hprev Hbw' Hnz Hq Hle|i' b s bw' q Hprev Hbw' Hnz Hq Hlt]; subst.
  - assert (bw' = bw) as -> by congruence.
    exists b, stall'. split; [done|]. unfold playback_body.
    rewrite Hq, bind_Ok. rewrite (proj2 (truediv_Ok _ _ _) (conj Hnz eq_refl)), bind_Ok.
    simpl. apply Qle_bool_iff in Hle. by rewrite Hle.
  - assert (bw' = bw) as -> by congruence.
    exists b, s. split; [done|]. unfold playback_body.
    rewrite Hq, bind_Ok. rewrite (proj2 (truediv_Ok _ _ _) (conj Hnz eq_refl)), bind_Ok.
    simpl. apply Qle_bool_false in Hlt. by rewrite Hlt.
Qed.

Lemma playback_loop_app trace seg w st items1 items2 :
  playback_loop trace seg w st (items1 ++ items2)
  = playback_loop trace seg w st items1 ≫= λ st', playback_loop trace seg w st' items2.
Proof.
  revert st. induction items1 as [|[i bw] items1 IH]; intros st; simpl; [done|].
  destruct (playback_body trace seg w st i bw) as [st1|e]; simpl; [apply IH | done].
Qed.

Lemma enumerate_from_app {A} (k : nat) (l1 l2 : list A) :
  Py.enumerate_from k (l1 ++ l2)
  = Py.enumerate_from k l1 ++ Py.enumerate_from (k + length l1) l2.
Proof.
  revert k. induction l1 as [|x l1 IH]; intros k; simpl.
  - by rewrite Nat.add_0_r.
  - rewrite IH. do 3 f_equal. lia.
Qed.

Lemma playback_prefix_S trace seg w n bw :
  trace !! n = Some bw →
  playback_prefix trace seg w (S n)
  = playback_prefix trace seg w n ≫= λ st, playback_body trace seg w st n bw.
Proof.
  intros Hbw. unfold playback_prefix, Py.enumerate.
  rewrite (take_S_r _ _ _ Hbw), enumerate_from_app, playback_loop_app.
  simpl. rewrite length_take_le by (apply lookup_lt_Some in Hbw; lia).
  destruct (playback_loop _ _ _ _ _) as [st|e]; simpl; [|done].
  by destruct (playback_body trace seg w st n bw).
Qed.

Lemma playback_prefix_run trace seg w n st :
  n ≤ length trace → playback_prefix trace seg w n = Ok st →
  playback_run trace seg w n (buffer_sec st) (total_stall st).
Proof.
  revert st. induction n as [|n IH]; intros st Hn Hst.
  - injection Hst as <-. simpl. constructor.
  - destruct (lookup_lt_is_Some_2 trace n) as [bw Hbw]; [lia|].
    rewrite (playback_prefix_S _ _ _ _ _ Hbw) in Hst.
    apply bind_inv_Ok in Hst as ([buf stall] & Hprev & Hbody).
    eapply playback_body_run; [|done..].
    apply (IH (PlaybackState buf stall)); [lia | done].
Qed.

Lemma playback_run_prefix trace seg w n buf stall :
  playback_run trace seg w n buf stall →
  playback_prefix trace seg w n = Ok (PlaybackState buf stall).
Proof.
  revert buf stall. induction n as [|n IH]; intros buf stall Hrun.
  - inversion Hrun; subst. reflexivity.
  - assert (∃ bw, trace !! n = Some bw) as [bw Hbw] by (inversion Hrun; eauto).
    destruct (playback_run_body _ _ _ _ _ _ _ Hrun Hbw) as (b & s & Hprev & Hbody).
    rewrite (playback_prefix_S _ _ _ _ _ Hbw), (IH _ _ Hprev), bind_Ok. exact Hbody.
Qed.

Lemma playback_run_bound trace seg w n buf stall :
  playback_run trace seg w n buf stall → n ≤ length trace.
Proof.
  destruct 1 as [|i ? ? bw ? _ Hbw|i ? ? bw ? _ Hbw]; [lia|..];
    apply lookup_lt_Some in Hbw; lia.
Qed.

Lemma playback_run_smoothed trace seg w n buf stall :
  playback_run trace seg w n buf stall →
  ∀ i, i < n → ∃ q, get_smoothed_throughput trace (Z.of_nat i) w = Ok q.
Proof.
  induction 1 as [|n ? ? ? q _ IH _ _ Hq|n ? ? ? q _ IH _ _ Hq]; intros i Hi;
    [lia|..]; (destruct (decide (i = n)) as [->|]; [eauto | apply IH; lia]).
Qed.

Lemma result_mapM_Ok {A B} (f : A → result B) (l : list A) :
  (∀ x, x ∈ l → ∃ y, f x = Ok y) →
  ∃ ys, result_mapM f l = Ok ys ∧ Forall2 (λ x y, f x = Ok y) l ys.
Proof.
  induction l as [|x l IH]; intros Hall; simpl.
  - exists []. split; [done | constructor].
  - destruct (Hall x) as [y Hy]; [left|].
    destruct IH as (ys & Hys & Hrel).
    { intros x' Hx'. apply Hall. by right. }
    exists (y :: ys). rewrite Hy, bind_Ok, Hys, bind_Ok. split; [done|].
    by constructor.
Qed.

Lemma result_mapM_inv {A B} (f : A → result B) (l : list A) (ys : list B) :
  result_mapM f l = Ok ys → Forall2 (λ x y, f x = Ok y) l ys.
Proof.
  revert ys. induction l as [|x l IH]; intros ys H; simpl in H.
  - injection H as <-. constructor.
  - apply bind_inv_Ok in H as (y & Hy & H).
    apply bind_inv_Ok in H as (ys' & Hys & H). injection H as <-.
    constructor; [done | by apply IH].
Qed.

Lemma result_mapM_raises {A B} (f : A → result B) (l : list A) e :
  result_mapM f l = Raise e → ∃ x, x ∈ l ∧ f x = Raise e.
Proof.
  induction l as [|x l IH]; simpl; [discriminate|].
  destruct (f x) as [y|e'] eqn:Hx; simpl.
  - destruct (result_mapM f l) as [ys|e'']; simpl; [discriminate|].
    intros [= ->]. destruct IH as (x' & Hin & Hx'); [done|].
    exists x'. split; [by right | done].
  - intros [= ->]. exists x. split; [left | done].
Qed.

Lemma smoothed_raises trace idx w e :
  get_smoothed_throughput trace idx w = Raise e → e = StatisticsError.
Proof. unfold get_smoothed_throughput. intros H. by apply mean_raises in H as [_ ->]. Qed.

Lemma playback_body_raises trace seg w st i bw e :
  playback_body trace seg w st i bw = Raise e →
  e = StatisticsError ∨ e = ZeroDivisionError.
Proof.
  unfold playback_body.
  destruct (get_smoothed_throughput _ _ _) as [q|e'] eqn:Hq; simpl.
  - unfold Py.truediv. destruct (Qeq_bool bw 0); simpl; [|discriminate].
    intros [= <-]. by right.
  - intros [= <-]. left. by eapply smoothed_raises.
Qed.

Lemma playback_loop_raises trace seg w st items e :
  playback_loop trace seg w st items = Raise e →
  e = StatisticsError ∨ e = ZeroDivisionError.
Proof.
  revert st. induction items as [|[i bw] items IH]; intros st; simpl; [discriminate|].
  destruct (playback_body trace seg w st i bw) as [st'|e'] eqn:Hb; simpl.
  - apply IH.
  - intros [= <-]. by eapply playback_body_raises.
Qed.

(** The only exceptions [simulate_playback] can raise. *)
Lemma simulate_playback_raises trace seg w e :
  simulate_playback trace seg w = Raise e →
  e = StatisticsError ∨ e = ZeroDivisionError.
Proof.
  unfold simulate_playback.
  destruct (playback_loop _ _ _ _ _) as [st|e'] eqn:Hloop; simpl.
  - destruct (result_mapM _ _) as [qs|e'] eqn:Hqs; simpl.
    + destruct (Py.mean qs) as [avg|e'] eqn:Havg; simpl; [discriminate|].
      intros [= <-]. apply mean_raises in Havg as [_ ->]. by left.
    + intros [= <-]. apply result_mapM_raises in Hqs as (i & _ & Hi).
      left. by eapply smoothed_raises.
  - intros [= <-]. by eapply playback_loop_raises.
Qed.

(** A zero sample makes the loop raise at the division. *)
Lemma playback_loop_zero trace seg w suffix k st :
  k + length suffix ≤ length trace → (1 ≤ w)%Z →
  Exists (λ bw, bw == 0)%Q suffix →
  playback_loop trace seg w st (Py.enumerate_from k suffix) = Raise ZeroDivisionError.
Proof.
  intros Hlen Hw. revert k st Hlen.
  induction suffix as [|bw suffix IH]; intros k st Hlen Hex; [by inversion Hex|].
  simpl in *. unfold playback_body at 1.
  destruct (smoothed_ok trace k w) as (q & -> & _); [lia | done |].
  rewrite bind_Ok.
  destruct (Qeq_dec bw 0) as [Hz|Hnz].
  - by rewrite (truediv_zero _ _ Hz).
  - rewrite (proj2 (truediv_Ok _ _ _) (conj Hnz eq_refl)). simpl.
    apply IH; [lia|]. apply Exists_cons in Hex as [Hz|Hex]; [done | exact Hex].
Qed.

(** Without a zero sample the loop runs to the end. *)
Lemma playback_loop_total trace seg w suffix k st :
  k + length suffix ≤ length trace → (1 ≤ w)%Z →
  Forall (λ bw, ¬ (bw == 0)%Q) suffix →
  ∃ st', playback_loop trace seg w st (Py.enumerate_from k suffix) = Ok st'.
Proof.
  intros Hlen Hw. revert k st Hlen.
  induction suffix as [|bw suffix IH]; intros k st Hlen Hall; [by eexists|].
  simpl in *. unfold playback_body at 1.
  destruct (smoothed_ok trace k w) as (q & -> & _); [lia | done |].
  rewrite bind_Ok. apply Forall_cons in Hall as [Hnz Hall].
  rewrite (proj2 (truediv_Ok _ _ _) (conj Hnz eq_refl)). simpl.
  apply IH; [lia | done].
Qed.

Lemma smoothed_all_ok trace w :
  (∀ i, i < length trace → ∃ q, get_smoothed_throughput trace (Z.of_nat i) w = Ok q) →
  ∃ qs, result_mapM (λ i : nat, get_smoothed_throughput trace (Z.of_nat i) w)
          (Py.range (Z.of_nat (length trace))) = Ok qs
    ∧ Forall2 (λ (i : nat) q, get_smoothed_throughput trace (Z.of_nat i) w = Ok q)
        (seq 0 (length trace)) qs.
Proof.
  intros Hall. unfold Py.range. rewrite Nat2Z.id.
  apply result_mapM_Ok. intros i Hi. apply Hall.
  apply elem_of_seq in Hi. lia.
Qed.

(** [simulate_playback] returns on a non-empty trace without zero samples. *)
Lemma simulate_playback_total trace seg w :
  trace ≠ [] → (1 ≤ w)%Z → Forall (λ bw, ¬ (bw == 0)%Q) trace →
  ∃ avg stall, simulate_playback trace seg w = Ok (avg, stall).
Proof.
  intros Hne Hw Hnz. unfold simulate_playback.
  destruct (playback_loop_total trace seg w trace 0
              (PlaybackState (seg * inject_Z w)%Q 0%Q)) as [st Hst]; [simpl; lia|done..|].
  unfold Py.enumerate. rewrite Hst, bind_Ok.
  destruct (smoothed_all_ok trace w) as (qs & -> & Hqs).
  { intros i Hi. destruct (smoothed_ok trace i w Hi Hw) as (q & Hq & _). eauto. }
  rewrite bind_Ok.
  destruct (mean_ok qs) as (avg & -> & _).
  { apply Forall2_length in Hqs. rewrite length_seq in Hqs.
    destruct qs; [|done]. destruct trace; [done | simpl in Hqs; lia]. }
  rewrite bind_Ok. eauto.
Qed.

Lemma simulate_playback_run trace seg w avg stall :
  simulate_playback trace seg w = Ok (avg, stall) →
  ∃ buf, playback_run trace seg w (length trace) buf stall.
Proof.
  unfold simulate_playback. intros H.
  apply bind_inv_Ok in H as (st & Hst & H).
  apply bind_inv_Ok in H as (qs & _ & H).
  apply bind_inv_Ok in H as (avg' & _ & H). injection H as _ <-.
  exists (buffer_sec st). apply playback_prefix_run; [done|].
  unfold playback_prefix. by rewrite firstn_all.
Qed.

Lemma playback_run_simulate trace seg w buf stall :
  trace ≠ [] → playback_run trace seg w (length trace) buf stall →
  ∃ avg, simulate_playback trace seg w = Ok (avg, stall).
Proof.
  intros Hne Hrun. unfold simulate_playback.
  pose proof (playback_run_prefix _ _ _ _ _ _ Hrun) as Hloop.
  unfold playback_prefix in Hloop. rewrite firstn_all in Hloop.
  rewrite Hloop, bind_Ok.
  destruct (smoothed_all_ok trace w) as (qs & -> & Hqs).
  { by eapply playback_run_smoothed. }
  rewrite bind_Ok.
  destruct (mean_ok qs) as (avg & -> & _).
  { apply Forall2_length in Hqs. rewrite length_seq in Hqs.
    destruct qs; [|done]. destruct trace; [done | simpl in Hqs; lia]. }
  rewrite bind_Ok. by exists avg.
Qed.

(** C1. On a non-empty trace, with a positive segment length and a window of
    at least 1, the total stall time [simulate_playback] returns is the one
    accumulated by the buffer policy: the buffer starts at
    [segment_length * smoothing_window]; at index [i] the download time is
    [smoothed(trace, i, window) * segment_length / trace[i]]; a download the
    buffer covers is subtracted from it, otherwise the shortfall is added to
    the stall time and the buffer is emptied; then [segment_length] is added.
    The call returns whenever no sample is zero. *)
Theorem playback_stall_accumulation (trace : list Q) (segment_length : Q)
    (smoothing_window : Z) :
  trace ≠ [] → (0 < segment_length)%Q → (1 ≤ smoothing_window)%Z →
  (∀ stall,
     (∃ avg, simulate_playback trace segment_length smoothing_window = Ok (avg, stall))
     ↔ ∃ buf, playback_run trace segment_length smoothing_window (length trace) buf stall)
  ∧ (Forall (λ bw, ¬ (bw == 0)%Q) trace →
     ∃ avg stall, simulate_playback trace segment_length smoothing_window = Ok (avg, stall)).
Proof.
  intros Hne _ Hw. split.
  - intros stall. split.
    + intros [avg H]. by eapply simulate_playback_run.
    + intros [buf H]. by eapply playback_run_simulate.
  - intros Hnz. by apply simulate_playback_total.
Qed.

Lemma playback_stall_accumulation_witness :
  [500; 2000]%Q ≠ [] ∧ (0 < 2)%Q ∧ (1 ≤ 1)%Z ∧
  (∀ stall,
     (∃ avg, simulate_playback [500; 2000]%Q 2 1 = Ok (avg, stall))
     ↔ ∃ buf, playback_run [500; 2000]%Q 2 1 (length [500; 2000]%Q) buf stall)
  ∧ (Forall (λ bw, ¬ (bw == 0)%Q) [500; 2000]%Q →
     ∃ avg stall, simulate_playback [500; 2000]%Q 2 1 = Ok (avg, stall)).
Proof.
  split; [discriminate|]. split; [reflexivity|]. split; [lia|].
  apply (playback_stall_accumulation [500; 2000]%Q 2 1);
    [discriminate | reflexivity | lia].
Defined.

(** C3. On a non-empty trace the average bitrate [simulate_playback] returns
    is the arithmetic mean of the smoothed estimates
    [smoothed(trace, i, window)] over all indices [i]; the call returns for a
    window of at least 1 and no zero sample.  It is not the mean of the raw
    samples: on [[500; 2000]] with window 2 the two differ. *)
Theorem average_bitrate_is_mean_of_smoothed (trace : list Q) (segment_length : Q)
    (smoothing_window : Z) :
  trace ≠ [] →
  (∀ avg stall,
     simulate_playback trace segment_length smoothing_window = Ok (avg, stall) →
     ∃ qualities,
       Forall2 (λ (i : nat) q,
                  get_smoothed_throughput trace (Z.of_nat i) smoothing_window = Ok q)
               (seq 0 (length trace)) qualities
       ∧ arith_mean_of qualities avg)
  ∧ ((1 ≤ smoothing_window)%Z → Forall (λ bw, ¬ (bw == 0)%Q) trace →
     ∃ avg stall, simulate_playback trace segment_length smoothing_window = Ok (avg, stall))
  ∧ (∃ avg stall,
       simulate_playback [500; 2000]%Q 2 2 = Ok (avg, stall)
       ∧ ∀ raw, arith_mean_of [500; 2000]%Q raw → ¬ (avg == raw)%Q).
Proof.
  intros Hne. split; [|split].
  - intros avg stall H. unfold simulate_playback in H.
    apply bind_inv_Ok in H as (st & _ & H).
    apply bind_inv_Ok in H as (qs & Hqs & H).
    apply bind_inv_Ok in H as (avg' & Havg & H). injection H as <- _.
    exists qs. split.
    + apply result_mapM_inv in Hqs. unfold Py.range in Hqs.
      by rewrite Nat2Z.id in Hqs.
    + destruct (mean_ok qs) as (q & Hq & Hmean).
      { intros ->. discriminate. }
      congruence.
  - intros Hw Hnz. by apply simulate_playback_total.
  - eexists _, _. split; [reflexivity|].
    intros raw [_ Hraw]. unfold total in Hraw. simpl in Hraw.
    intros Heq. rewrite <- Heq in Hraw. vm_compute in Hraw. discriminate.
Qed.

Lemma average_bitrate_is_mean_of_smoothed_witness :
  [500; 1000; 2000]%Q ≠ [] ∧
  ∀ avg stall,
    simulate_playback [500; 1000; 2000]%Q 2 3 = Ok (avg, stall) →
    ∃ qualities,
      Forall2 (λ (i : nat) q,
                 get_smoothed_throughput [500; 1000; 2000]%Q (Z.of_nat i) 3 = Ok q)
              (seq 0 (length [500; 1000; 2000]%Q)) qualities
      ∧ arith_mean_of qualities avg.
Proof.
  split; [discriminate|].
  apply (average_bitrate_is_mean_of_smoothed [500; 1000; 2000]%Q 2 3). discriminate.
Defined.

(** C9. On the empty trace [simulate_playback] returns no outcome: the mean
    over zero smoothed estimates raises, for every segment length and
    window. *)
Theorem empty_trace_raises (segment_length : Q) (smoothing_window : Z) :
  simulate_playback [] segment_length smoothing_window = Raise StatisticsError.
Proof. reflexivity. Qed.

(** C6, as the code behaves.  For a window of at least 1,
    [simulate_playback] never raises [InvalidStateError]; a trace with a zero
    sample makes it raise [ZeroDivisionError] at the division; a non-empty
    trace without a zero sample, negative samples included, is replayed and
    an outcome returned. *)
Theorem zero_throughput_raises_zero_division (trace : list Q) (segment_length : Q)
    (smoothing_window : Z) :
  (1 ≤ smoothing_window)%Z →
  simulate_playback trace segment_length smoothing_window ≠ Raise InvalidStateError
  ∧ (Exists (λ bw, bw == 0)%Q trace →
     simulate_playback trace segment_length smoothing_window = Raise ZeroDivisionError)
  ∧ (trace ≠ [] → Forall (λ bw, ¬ (bw == 0)%Q) trace →
     ∃ avg stall, simulate_playback trace segment_length smoothing_window = Ok (avg, stall)).
Proof.
  intros Hw. split; [|split].
  - intros H. by apply simulate_playback_raises in H as [|].
  - intros Hz. unfold simulate_playback, Py.enumerate.
    rewrite (playback_loop_zero trace _ _ trace 0); [done | simpl; lia | done..].
  - intros Hne Hnz. by apply simulate_playback_total.
Qed.

Lemma zero_throughput_raises_zero_division_witness :
  (1 ≤ 1)%Z ∧
  simulate_playback [500; 0]%Q 2 1 ≠ Raise InvalidStateError
  ∧ (Exists (λ bw, bw == 0)%Q [500; 0]%Q →
     simulate_playback [500; 0]%Q 2 1 = Raise ZeroDivisionError)
  ∧ ([500; 0]%Q ≠ [] → Forall (λ bw, ¬ (bw == 0)%Q) [500; 0]%Q →
     ∃ avg stall, simulate_playback [500; 0]%Q 2 1 = Ok (avg, stall)).
Proof.
  split; [lia|]. apply (zero_throughput_raises_zero_division [500; 0]%Q 2 1). lia.
Defined.

(** C6 as stated fails: a zero sample raises [ZeroDivisionError], not
    [InvalidStateError], and a negative sample raises nothing. *)
Lemma invalid_state_error_counterexample :
  simulate_playback [0]%Q 2 1 = Raise ZeroDivisionError
  ∧ simulate_playback [0]%Q 2 1 ≠ Raise InvalidStateError
  ∧ simulate_playback [-500]%Q 2 1 = Ok ((-500)%Q, 0%Q)
  ∧ simulate_playback [-500]%Q 2 1 ≠ Raise InvalidStateError.
Proof. repeat split; try reflexivity; discriminate. Qed.

(** ** The chain sampler *)

Lemma Qlt_bool_iff (x y : Q) : Qlt_bool x y = true ↔ (x < y)%Q.
Proof. unfold Qlt_bool. rewrite Bool.negb_true_iff. apply Qle_bool_false. Qed.

Lemma Qlt_bool_false (x y : Q) : Qlt_bool x y = false ↔ (y <= x)%Q.
Proof. unfold Qlt_bool. rewrite Bool.negb_false_iff. apply Qle_bool_iff. Qed.

Lemma cum_prob_0 (p : Q) (row : list Q) : cum_prob (p :: row) 0 = (p + 0)%Q.
Proof. reflexivity. Qed.

Lemma cum_prob_S (p : Q) (row : list Q) (k : nat) :
  cum_prob (p :: row) (S k) = (p + cum_prob row k)%Q.
Proof. reflexivity. Qed.

Lemma scan_row_Some r cum j0 row j :
  scan_row r cum j0 row = Some j →
  ∃ k, j = j0 + k ∧ k < length row ∧ (r < cum + cum_prob row k)%Q
       ∧ ∀ k', k' < k → (cum + cum_prob row k' <= r)%Q.
Proof.
  revert cum j0. induction row as [|p row IH]; intros cum j0; simpl; [discriminate|].
  destruct (Qlt_bool r (cum + p)) eqn:E.
  - intros [= <-]. apply Qlt_bool_iff in E. exists 0.
    rewrite cum_prob_0. repeat split; [lia | lia | lra | lia].
  - intros H. apply Qlt_bool_false in E.
    destruct (IH _ _ H) as (k & -> & Hk & Hlt & Hle).
    exists (S k). rewrite cum_prob_S. repeat split; [lia | lia | lra |].
    intros [|k'] Hk'.
    + rewrite cum_prob_0. lra.
    + rewrite cum_prob_S. specialize (Hle k' ltac:(lia)). lra.
Qed.

Lemma scan_row_None r cum j0 row :
  scan_row r cum j0 row = None →
  ∀ k, k < length row → (cum + cum_prob row k <= r)%Q.
Proof.
  revert cum j0. induction row as [|p row IH]; intros cum j0; simpl; [lia|].
  destruct (Qlt_bool r (cum + p)) eqn:E; [discriminate|].
  intros H [|k] Hk; apply Qlt_bool_false in E.
  - rewrite cum_prob_0. lra.
  - rewrite cum_prob_S. specialize (IH _ _ H k ltac:(lia)). lra.
Qed.

(** The scan of a row realises the specified transition. *)
Lemma scan_row_transition row r c :
  transition row r c (default c (scan_row r 0%Q 0 row)).
Proof.
  destruct (scan_row r 0%Q 0 row) as [j|] eqn:E; simpl.
  - apply scan_row_Some in E as (k & -> & Hk & Hlt & Hle).
    apply transition_to. change (0 + k) with k. repeat split; [done | lra |].
    intros k' Hk'. specialize (Hle k' Hk'). lra.
  - apply transition_stay. intros j Hj.
    pose proof (scan_row_None _ _ _ _ E j Hj). lra.
Qed.

Lemma transition_functional row r c c1 c2 :
  transition row r c c1 → transition row r c c2 → c1 = c2.
Proof.
  intros [j1 (Hj1 & Hlt1 & Hle1)|Hun1] [j2 (Hj2 & Hlt2 & Hle2)|Hun2]; [| | |done].
  - destruct (Nat.lt_trichotomy j1 j2) as [H|[H|H]]; [|done|].
    + specialize (Hle2 j1 H). lra.
    + specialize (Hle1 j2 H). lra.
  - specialize (Hun2 j1 Hj1). lra.
  - specialize (Hun1 j2 Hj2). lra.
Qed.

Lemma getitem_Ok {A} (l : list A) (i : nat) (x : A) :
  Py.getitem l i = Ok x ↔ l !! i = Some x.
Proof.
  unfold Py.getitem. destruct (l !! i); split; intros H; try discriminate; congruence.
Qed.

Lemma getitem_raises {A} (l : list A) (i : nat) e :
  Py.getitem l i = Raise e → e = IndexError ∧ length l ≤ i.
Proof.
  unfold Py.getitem. destruct (l !! i) eqn:E; [discriminate|].
  intros [= <-]. split; [done|]. by apply lookup_ge_None.
Qed.

Lemma sampler_body_Ok P states st st' :
  sampler_body P states st = Ok st' ↔
  ∃ v row, states !! current st = Some v ∧ P !! current st = Some row
    ∧ transition row (draws (generator st) (position (generator st)))
        (current st) (current st')
    ∧ trace_so_far st' = trace_so_far st ++ [v]
    ∧ generator st' = Rng (draws (generator st)) (S (position (generator st))).
Proof.
  unfold sampler_body, random. split.
  - intros H. apply bind_inv_Ok in H as (v & Hv & H).
    apply bind_inv_Ok in H as (row & Hrow & H). injection H as <-.
    apply getitem_Ok in Hv, Hrow. exists v, row. simpl.
    repeat split; [done..|]. apply scan_row_transition.
  - intros (v & row & Hv & Hrow & Htr & Htrace & Hgen).
    apply getitem_Ok in Hv, Hrow. rewrite Hv, bind_Ok, Hrow, bind_Ok.
    destruct st' as [c' tr' g']. simpl in *. subst. f_equal. f_equal.
    eapply transition_functional; [|exact Htr]. apply scan_row_transition.
Qed.

Lemma sampler_loop_snoc P states n st :
  sampler_loop P states (S n) st
  = sampler_loop P states n st ≫= sampler_body P states.
Proof.
  revert st. induction n as [|n IH]; intros st.
  - simpl. by destruct (sampler_body P states st).
  - change (sampler_loop P states (S (S n)) st)
      with (sampler_body P states st ≫= sampler_loop P states (S n)).
    change (sampler_loop P states (S n) st)
      with (sampler_body P states st ≫= sampler_loop P states n).
    destruct (sampler_body P states st) as [st1|e]; simpl; [apply IH | done].
Qed.

Lemma chain_run_length P states draw t c tr :
  chain_run P states draw t c tr → length tr = t.
Proof. induction 1; [done|]. rewrite length_app. simpl. lia. Qed.

Lemma rng_at_start g : Rng (draws g) (position g + 0) = g.
Proof. destruct g as [d p]. simpl. f_equal. lia. Qed.

(** The loop from the initial state computes exactly the specified run. *)
Lemma sampler_loop_run P states g n st :
  sampler_loop P states n (SamplerState 0 [] g) = Ok st ↔
  chain_run P states (λ t, draws g (position g + t)) n (current st) (trace_so_far st)
  ∧ generator st = Rng (draws g) (position g + n).
Proof.
  revert st. induction n as [|n IH]; intros st.
  - simpl. rewrite rng_at_start. split.
    + intros [= <-]. simpl. split; [constructor | done].
    + intros [Hrun Hgen]. inversion Hrun as [Hc Htr|]; subst.
      destruct st as [c tr g']. simpl in *. congruence.
  - rewrite sampler_loop_snoc. split.
    + intros H. apply bind_inv_Ok in H as (st1 & Hloop & Hbody).
      apply IH in Hloop as [Hrun Hgen].
      apply sampler_body_Ok in Hbody as (v & row & Hv & Hrow & Htr & Htrace & Hg).
      rewrite Hgen in Htr, Hg. simpl in Htr, Hg. split.
      * rewrite Htrace. by eapply chain_step.
      * rewrite Hg. f_equal. lia.
    + intros [Hrun Hgen].
      inversion Hrun as [|t c c' tr v row Hprev Hv Hrow Htr Ht Hc Htrace]; subst.
      pose (st1 := SamplerState c tr (Rng (draws g) (position g + n))).
      rewrite (proj2 (IH st1)), bind_Ok by done.
      apply sampler_body_Ok. exists v, row. simpl. repeat split; [done..|].
      rewrite Hgen. f_equal. lia.
Qed.

Lemma first_exceeding_bound row r j : first_exceeding row r j → j < length row.
Proof. by intros [? _]. Qed.

(** One step keeps the index inside [states] when no row is longer than
    [states], and appends an element of [states]. *)
Lemma sampler_body_invariant P states st st' :
  Forall (λ row : list Q, length row ≤ length states) P →
  sampler_body P states st = Ok st' →
  current st' < length states
  ∧ ∃ v, states !! current st = Some v ∧ trace_so_far st' = trace_so_far st ++ [v].
Proof.
  intros Hrows H.
  apply sampler_body_Ok in H as (v & row & Hv & Hrow & Htr & Htrace & _).
  split; [|eauto].
  destruct Htr as [j Hj|_].
  - apply first_exceeding_bound in Hj.
    pose proof (Forall_lookup_1 _ _ _ _ Hrows Hrow) as Hlen. simpl in Hlen. lia.
  - by apply lookup_lt_Some in Hv.
Qed.

Lemma sampler_loop_invariant P states n st st' :
  Forall (λ row : list Q, length row ≤ length states) P →
  current st < length states →
  sampler_loop P states n st = Ok st' →
  current st' < length states
  ∧ ∃ emitted, trace_so_far st' = trace_so_far st ++ emitted
      ∧ Forall (λ v, v ∈ states) emitted.
Proof.
  intros Hrows. revert st. induction n as [|n IH]; intros st Hc H.
  - injection H as <-. split; [done|]. exists []. by rewrite app_nil_r.
  - simpl in H. apply bind_inv_Ok in H as (st1 & Hbody & Hloop).
    destruct (sampler_body_invariant _ _ _ _ Hrows Hbody) as (Hc1 & v & Hv & Htr1).
    destruct (IH st1 Hc1 Hloop) as (Hc' & emitted & Htr' & Hall).
    split; [done|]. exists (v :: emitted). split.
    + rewrite Htr', Htr1, <- app_assoc. reflexivity.
    + constructor; [|done]. by eapply list_elem_of_lookup_2.
Qed.

(** With a row for every state the loop never raises. *)
Lemma sampler_loop_total P states n st :
  Forall (λ row : list Q, length row ≤ length states) P →
  length states ≤ length P →
  current st < length states →
  ∃ st', sampler_loop P states n st = Ok st'.
Proof.
  intros Hrows HP. revert st. induction n as [|n IH]; intros st Hc; [by eexists|].
  destruct (lookup_lt_is_Some_2 states (current st)) as [v Hv]; [done|].
  destruct (lookup_lt_is_Some_2 P (current st)) as [row Hrow]; [lia|].
  destruct (sampler_body P states st) as [st1|e] eqn:Hbody.
  - simpl. rewrite Hbody, bind_Ok. apply IH.
    by destruct (sampler_body_invariant _ _ _ _ Hrows Hbody).
  - unfold sampler_body in Hbody.
    rewrite (proj2 (getitem_Ok _ _ _) Hv), bind_Ok in Hbody. simpl in Hbody.
    rewrite (proj2 (getitem_Ok _ _ _) Hrow), bind_Ok in Hbody. discriminate.
Qed.

Lemma sampler_body_raises P states st e :
  sampler_body P states st = Raise e → e = IndexError.
Proof.
  unfold sampler_body.
  destruct (Py.getitem states (current st)) as [v|e1] eqn:Hv; simpl.
  - destruct (Py.getitem P (current st)) as [row|e2] eqn:Hrow; simpl; [discriminate|].
    intros [= <-]. by apply getitem_raises in Hrow as [-> _].
  - intros [= <-]. by apply getitem_raises in Hv as [-> _].
Qed.

Lemma sampler_loop_raises P states n st e :
  sampler_loop P states n st = Raise e → e = IndexError.
Proof.
  revert st. induction n as [|n IH]; intros st; simpl; [discriminate|].
  destruct (sampler_body P states st) as [st1|e1] eqn:Hbody; simpl; [apply IH|].
  intros [= <-]. by eapply sampler_body_raises.
Qed.


Lemma range_length (n : Z) : length (Py.range n) = Z.to_nat n.
Proof. unfold Py.range. apply length_seq. Qed.

Lemma simulate_throughput_inv num_steps P states g trace g' :
  simulate_throughput num_steps P states g = Ok (trace, g') →
  ∃ c, sampler_loop P states (Z.to_nat num_steps) (SamplerState 0 [] g)
       = Ok (SamplerState c trace g').
Proof.
  unfold simulate_throughput. rewrite range_length. intros H.
  apply bind_inv_Ok in H as ([c tr gen] & Hloop & H). injection H as <- <-. eauto.
Qed.

(** The sampler returns when [states] is non-empty, no row is longer than
    [states] and every state has a row. *)
Lemma simulate_throughput_total num_steps P states g :
  states ≠ [] →
  Forall (λ row : list Q, length row ≤ length states) P →
  length states ≤ length P →
  ∃ trace g', simulate_throughput num_steps P states g = Ok (trace, g').
Proof.
  intros Hne Hrows HP. unfold simulate_throughput.
  destruct (sampler_loop_total P states (length (Py.range num_steps))
              (SamplerState 0 [] g) Hrows HP) as [st ->].
  { simpl. destruct states; [done | simpl; lia]. }
  rewrite bind_Ok. eauto.
Qed.



(** C7, as the code behaves.  When [num_steps] is negative or a row length
    differs from the number of states the sampler raises no
    [ConfigurationError]: a negative [num_steps] gives the empty trace and
    leaves the generator untouched, and the only exception the sampler can
    raise is [IndexError]. *)
Theorem sampler_checks_no_precondition (num_steps : Z) (P : list (list Q))
    (states : list Q) (g : rng) :
  (num_steps < 0)%Z ∨ (∃ row, row ∈ P ∧ length row ≠ length states) →
  simulate_throughput num_steps P states g ≠ Raise ConfigurationError
  ∧ ((num_steps < 0)%Z → simulate_throughput num_steps P states g = Ok ([], g))
  ∧ (∀ e, simulate_throughput num_steps P states g = Raise e → e = IndexError).
Proof.
  intros _.
  assert (Hraise : ∀ e, simulate_throughput num_steps P states g = Raise e
                        → e = IndexError).
  { intros e. unfold simulate_throughput.
    destruct (sampler_loop _ _ _ _) as [st|e'] eqn:Hloop; simpl; [discriminate|].
    intros [= <-]. by eapply sampler_loop_raises. }
  split; [|split; [|exact Hraise]].
  - intros H. by apply Hraise in H.
  - intros Hneg. unfold simulate_throughput, Py.range.
    by replace (Z.to_nat num_steps) with 0 by lia.
Qed.

Lemma sampler_checks_no_precondition_witness :
  ((-3 < 0)%Z ∨ (∃ row, row ∈ [[1%Q]] ∧ length row ≠ length [500; 1000]%Q)) ∧
  simulate_throughput (-3) [[1%Q]] [500; 1000]%Q (Rng (λ _, 1 # 2)%Q 0)
  = Ok ([], Rng (λ _, 1 # 2)%Q 0).
Proof.
  split; [left; lia|].
  apply (sampler_checks_no_precondition (-3) [[1%Q]] [500; 1000]%Q
           (Rng (λ _, 1 # 2)%Q 0)); [left|]; lia.
Defined.

(** C7 as stated fails: with [num_steps = -1] the sampler returns the empty
    trace, and with a row shorter than [states] it returns a full trace. *)
Lemma configuration_error_counterexample :
  simulate_throughput (-1) [[1 # 2; 1 # 2]; [1 # 2; 1 # 2]]%Q [500; 1000]%Q
    (Rng (λ _, 1 # 2)%Q 0)
  = Ok ([], Rng (λ _, 1 # 2)%Q 0)
  ∧ length [1%Q] ≠ length [500; 1000]%Q
  ∧ simulate_throughput 2 [[1%Q]] [500; 1000]%Q (Rng (λ _, 1 # 2)%Q 0)
    = Ok ([500; 500]%Q, Rng (λ _, 1 # 2)%Q 2).
Proof. repeat split; try reflexivity. discriminate. Qed.

(** C10, for non-empty [states].  When no row is longer than [states], every
    state the loop reaches has its index inside [states] and every element
    emitted is an element of [states]; a returned trace consists of elements
    of [states] and, for [num_steps >= 1], starts with [states[0]].  The
    sampler returns when, in addition, every state has a row. *)
Theorem sampler_index_stays_valid (num_steps : Z) (P : list (list Q))
    (states : list Q) (g : rng) :
  (0 ≤ num_steps)%Z → states ≠ [] →
  Forall (λ row : list Q, length row ≤ length states) P →
  (∀ k st, sampler_loop P states k (SamplerState 0 [] g) = Ok st →
     current st < length states ∧ Forall (λ v, v ∈ states) (trace_so_far st))
  ∧ (∀ trace g',
       simulate_throughput num_steps P states g = Ok (trace, g') →
       Forall (λ v, v ∈ states) trace
       ∧ ((1 ≤ num_steps)%Z → ∃ v, states !! 0 = Some v ∧ trace !! 0 = Some v))
  ∧ (length states ≤ length P →
     ∃ trace g', simulate_throughput num_steps P states g = Ok (trace, g')).
Proof.
  intros Hn Hne Hrows.
  assert (H0 : 0 < length states) by (destruct states; [done | simpl; lia]).
  assert (Hinv : ∀ k st, sampler_loop P states k (SamplerState 0 [] g) = Ok st →
     current st < length states ∧ Forall (λ v, v ∈ states) (trace_so_far st)).
  { intros k st Hloop.
    destruct (sampler_loop_invariant P states k (SamplerState 0 [] g) st Hrows H0 Hloop)
      as (Hc & emitted & Htr & Hall).
    simpl in Htr. by rewrite Htr. }
  split; [exact Hinv|]. split.
  - intros trace g' H. apply simulate_throughput_inv in H as [c Hloop].
    split; [apply (Hinv _ _ Hloop)|].
    intros Hpos. destruct (Z.to_nat num_steps) as [|n] eqn:En; [lia|].
    simpl in Hloop. apply bind_inv_Ok in Hloop as (st1 & Hbody & Hloop).
    destruct (sampler_body_invariant _ _ _ _ Hrows Hbody) as (Hc1 & v & Hv & Htr1).
    destruct (sampler_loop_invariant _ _ _ _ _ Hrows Hc1 Hloop)
      as (_ & emitted & Htr & _).
    simpl in *. exists v. split; [done|]. by rewrite Htr, Htr1.
  - intros HP. by apply simulate_throughput_total.
Qed.

Lemma sampler_index_stays_valid_witness :
  (0 ≤ 3)%Z ∧ [500; 1000]%Q ≠ [] ∧
  Forall (λ row : list Q, length row ≤ length [500; 1000]%Q)
    [[1 # 2; 1 # 2]; [1%Q]]%Q ∧
  ∀ trace g',
    simulate_throughput 3 [[1 # 2; 1 # 2]; [1%Q]]%Q [500; 1000]%Q
      (Rng (λ _, 3 # 5)%Q 0) = Ok (trace, g') →
    Forall (λ v, v ∈ [500; 1000]%Q) trace
    ∧ ((1 ≤ 3)%Z → ∃ v, [500; 1000]%Q !! 0 = Some v ∧ trace !! 0 = Some v).
Proof.
  assert (Hrows : Forall (λ row : list Q, length row ≤ length [500; 1000]%Q)
                    [[1 # 2; 1 # 2]; [1%Q]]%Q).
  { repeat constructor. }
  split; [lia|]. split; [discriminate|]. split; [exact Hrows|].
  apply (sampler_index_stays_valid 3 [[1 # 2; 1 # 2]; [1%Q]]%Q [500; 1000]%Q
           (Rng (λ _, 3 # 5)%Q 0)); [lia | discriminate | exact Hrows].
Defined.

(** C10 as stated fails for an empty [states]: the row condition holds, yet
    the start index 0 is no index of [states] and the first step raises. *)
Lemma empty_states_counterexample :
  Forall (λ row : list Q, length row ≤ length ([] : list Q)) []
  ∧ ¬ (current (SamplerState 0 [] (Rng (λ _, 1 # 2)%Q 0)) < length ([] : list Q))
  ∧ simulate_throughput 1 [] [] (Rng (λ _, 1 # 2)%Q 0) = Raise IndexError.
Proof. split; [constructor|]. split; [simpl; lia | reflexivity]. Qed.

(** ** Monte Carlo and the sweep *)

Lemma simulate_throughput_valid num_steps P states g :
  states ≠ [] → Forall (λ v, ¬ (v == 0)%Q) states →
  Forall (λ row : list Q, length row ≤ length states) P →
  length states ≤ length P → (1 ≤ num_steps)%Z →
  ∃ trace g', simulate_throughput num_steps P states g = Ok (trace, g')
    ∧ trace ≠ [] ∧ Forall (λ bw, ¬ (bw == 0)%Q) trace.
Proof.
  intros Hne Hnz Hrows HP Hn.
  destruct (simulate_throughput_total num_steps P states g Hne Hrows HP)
    as (trace & g' & H).
  exists trace, g'. split; [done|].
  destruct (simulate_throughput_inv _ _ _ _ _ _ H) as [c Hloop].
  assert (H0 : 0 < length states) by (destruct states; [done | simpl; lia]).
  destruct (sampler_loop_invariant P states _ (SamplerState 0 [] g) _ Hrows H0 Hloop)
    as (_ & emitted & Htr & Hall).
  apply sampler_loop_run in Hloop as [Hrun _]. apply chain_run_length in Hrun.
  simpl in *. subst emitted. split.
  - intros ->. simpl in Hrun. lia.
  - eapply Forall_impl; [exact Hall|]. intros v Hv.
    by apply (proj1 (Forall_forall _ _) Hnz).
Qed.

Lemma monte_carlo_loop_total P states num_steps seg w n results g :
  states ≠ [] → Forall (λ v, ¬ (v == 0)%Q) states →
  Forall (λ row : list Q, length row ≤ length states) P →
  length states ≤ length P → (1 ≤ num_steps)%Z → (1 ≤ w)%Z →
  ∃ data g', monte_carlo_loop P states num_steps seg w n results g = Ok (data, g')
    ∧ length data = length results + n.
Proof.
  intros Hne Hnz Hrows HP Hn Hw. revert results g.
  induction n as [|n IH]; intros results g; simpl.
  - exists results, g. split; [done | lia].
  - destruct (simulate_throughput_valid num_steps P states g)
      as (trace & g1 & -> & Htne & Htnz); [done..|].
    rewrite bind_Ok.
    destruct (simulate_playback_total trace seg w Htne Hw Htnz) as (avg & stall & ->).
    rewrite bind_Ok.
    destruct (IH (results ++ [(avg, stall)]) g1) as (data & g' & -> & Hlen).
    exists data, g'. split; [done|]. rewrite length_app in Hlen. simpl in Hlen. lia.
Qed.

Lemma stdev_Ok sqrt (data : list Q) : 2 ≤ length data → ∃ sd, Py.stdev sqrt data = Ok sd.
Proof. destruct data as [|x [|y data]]; simpl; [lia | lia | eauto]. Qed.

Lemma sweep_cell_key sqrt P states num_steps runs seg w g row g' :
  sweep_cell sqrt P states num_steps runs seg w g = Ok (row, g') →
  row_key row = Some (seg, w).
Proof.
  unfold sweep_cell. intros H.
  apply bind_inv_Ok in H as ([data g1] & _ & H).
  apply bind_inv_Ok in H as (mq & _ & H). apply bind_inv_Ok in H as (sq & _ & H).
  apply bind_inv_Ok in H as (ms & _ & H). apply bind_inv_Ok in H as (ss & _ & H).
  by injection H as <- _.
Qed.

Lemma sweep_cell_total sqrt P states num_steps runs seg w g :
  states ≠ [] → Forall (λ v, ¬ (v == 0)%Q) states →
  Forall (λ row : list Q, length row ≤ length states) P →
  length states ≤ length P → (1 ≤ num_steps)%Z → (2 ≤ runs)%Z → (1 ≤ w)%Z →
  ∃ row g', sweep_cell sqrt P states num_steps runs seg w g = Ok (row, g').
Proof.
  intros Hne Hnz Hrows HP Hn Hruns Hw. unfold sweep_cell, monte_carlo.
  destruct (monte_carlo_loop_total P states num_steps seg w
              (length (Py.range runs)) [] g) as (data & g' & -> & Hlen); [done..|].
  rewrite range_length in Hlen. simpl in Hlen. rewrite bind_Ok.
  assert (Hq : 2 ≤ length (map fst data)) by (rewrite length_map; lia).
  assert (Hs : 2 ≤ length (map snd data)) by (rewrite length_map; lia).
  destruct (mean_ok (map fst data)) as (mq & -> & _); [intros E; rewrite E in Hq; simpl in Hq; lia|].
  destruct (stdev_Ok sqrt _ Hq) as (sq & ->).
  destruct (mean_ok (map snd data)) as (ms & -> & _); [intros E; rewrite E in Hs; simpl in Hs; lia|].
  destruct (stdev_Ok sqrt _ Hs) as (ss & ->).
  rewrite !bind_Ok. eauto.
Qed.

(** The inner loop appends one row per window, in order, and stops at the
    first cell that raises. *)
Lemma sweep_windows_rows sqrt P states num_steps runs seg ws file g file' outcome :
  sweep_windows sqrt P states num_steps runs seg ws file g = (file', outcome) →
  ∃ rows done rest,
    file' = file ++ rows ∧ map (λ w, (seg, w)) ws = done ++ rest
    ∧ Forall2 keyed rows done ∧ (∀ g', outcome = Ok g' → rest = []).
Proof.
  revert file g. induction ws as [|w ws IH]; intros file g; simpl.
  - intros [= <- <-]. exists [], [], []. rewrite app_nil_r.
    split_and!; [done | done | constructor | done].
  - destruct (sweep_cell sqrt P states num_steps runs seg w g) as [[row g1]|e] eqn:Hcell.
    + intros H. apply IH in H as (rows & done & rest & -> & Hgrid & Hrows & Hrest).
      exists (row :: rows), ((seg, w) :: done), rest.
      rewrite <- app_assoc. simpl. rewrite Hgrid.
      split_and!; [done | done | | done]. constructor; [|done]. by eapply sweep_cell_key.
    + intros [= <- <-]. exists [], [], ((seg, w) :: map (λ w, (seg, w)) ws).
      rewrite app_nil_r. split_and!; [done | done | constructor | discriminate].
Qed.

Lemma sweep_segments_rows sqrt P states num_steps runs segs ws file g file' outcome :
  sweep_segments sqrt P states num_steps runs segs ws file g = (file', outcome) →
  ∃ rows done rest,
    file' = file ++ rows ∧ sweep_grid segs ws = done ++ rest
    ∧ Forall2 keyed rows done ∧ (∀ g', outcome = Ok g' → rest = []).
Proof.
  revert file g. induction segs as [|seg segs IH]; intros file g; simpl.
  - intros [= <- <-]. exists [], [], []. rewrite app_nil_r.
    split_and!; [done | done | constructor | done].
  - destruct (sweep_windows sqrt P states num_steps runs seg ws file g)
      as [file1 [g1|e]] eqn:Hinner;
      apply sweep_windows_rows in Hinner as (rows1 & done1 & rest1 & -> & Hgrid1 & Hrows1 & Hrest1).
    + intros H. apply IH in H as (rows2 & done2 & rest2 & -> & Hgrid2 & Hrows2 & Hrest2).
      rewrite (Hrest1 g1 eq_refl), app_nil_r in Hgrid1.
      exists (rows1 ++ rows2), (done1 ++ done2), rest2.
      rewrite Hgrid1, Hgrid2, <- !app_assoc.
      split_and!; [done | done | | done]. by apply Forall2_app.
    + intros [= <- <-]. exists rows1, done1, (rest1 ++ sweep_grid segs ws).
      rewrite Hgrid1, <- app_assoc. split_and!; [done | done | done | discriminate].
Qed.

Lemma sweep_windows_total sqrt P states num_steps runs seg ws file g :
  states ≠ [] → Forall (λ v, ¬ (v == 0)%Q) states →
  Forall (λ row : list Q, length row ≤ length states) P →
  length states ≤ length P → (1 ≤ num_steps)%Z → (2 ≤ runs)%Z →
  Forall (λ w, (1 ≤ w)%Z) ws →
  ∃ file' g', sweep_windows sqrt P states num_steps runs seg ws file g = (file', Ok g').
Proof.
  intros Hne Hnz Hrows HP Hn Hruns Hws. revert file g.
  induction Hws as [|w ws Hw _ IH]; intros file g; simpl; [eauto|].
  destruct (sweep_cell_total sqrt P states num_steps runs seg w g)
    as (row & g1 & ->); [done..|]. apply IH.
Qed.

Lemma sweep_segments_total sqrt P states num_steps runs segs ws file g :
  states ≠ [] → Forall (λ v, ¬ (v == 0)%Q) states →
  Forall (λ row : list Q, length row ≤ length states) P →
  length states ≤ length P → (1 ≤ num_steps)%Z → (2 ≤ runs)%Z →
  Forall (λ w, (1 ≤ w)%Z) ws →
  ∃ file' g', sweep_segments sqrt P states num_steps runs segs ws file g = (file', Ok g').
Proof.
  intros Hne Hnz Hrows HP Hn Hruns Hws. revert file g.
  induction segs as [|seg segs IH]; intros file g; simpl; [eauto|].
  destruct (sweep_windows_total sqrt P states num_steps runs seg ws file g)
    as (file1 & g1 & ->); [done..|]. apply IH.
Qed.

Lemma sweep_grid_length (segs : list Q) (ws : list Z) :
  length (sweep_grid segs ws) = length segs * length ws.
Proof.
  induction segs as [|seg segs IH]; simpl; [done|].
  by rewrite length_app, length_map, IH.
Qed.

(** Position of a cell in the nested order. *)
Lemma sweep_grid_lookup (segs : list Q) (ws : list Z) i j seg w :
  segs !! i = Some seg → ws !! j = Some w →
  sweep_grid segs ws !! (i * length ws + j) = Some (seg, w).
Proof.
  revert i. induction segs as [|s segs IH]; intros i Hseg Hw; [done|].
  simpl. destruct i as [|i]; simpl in *.
  - injection Hseg as ->. rewrite lookup_app_l.
    + by rewrite list_lookup_fmap, Hw.
    + rewrite length_map. by eapply lookup_lt_Some.
  - rewrite lookup_app_r by (rewrite length_map; lia).
    rewrite length_map.
    replace (length ws + i * length ws + j - length ws) with (i * length ws + j) by lia.
    by apply IH.
Qed.

Lemma keyed_data_row row seg w :
  keyed row (seg, w) → ∃ mq sq ms ss, row = DataRow seg w mq sq ms ss.
Proof.
  destruct row as [cols|seg' w' mq sq ms ss]; unfold keyed; simpl; [discriminate|].
  intros [= -> ->]. eauto.
Qed.

(** C4. The file [parameter_sweep] writes is the header followed by data
    rows for an initial part of the grid of (segment_length, smooth_window)
    pairs taken in nested order, segment length outer and window inner.  When
    the call returns normally the rows cover the whole grid: there are
    [len(segment_lengths) * len(smooth_windows)] of them and the row at
    position [i * len(smooth_windows) + j] is the one for
    [(segment_lengths[i], smooth_windows[j])].  The call returns normally on
    every valid configuration. *)
Theorem sweep_rows_follow_grid (sqrt : Q → Q) (P : list (list Q)) (states : list Q)
    (num_steps : Z) (segment_lengths : list Q) (smooth_windows : list Z)
    (runs : Z) (g : rng) :
  let sweep :=
    parameter_sweep sqrt P states num_steps segment_lengths smooth_windows runs g in
  ∃ rows,
    fst sweep = sweep_header :: rows
    ∧ (∃ done rest,
         sweep_grid segment_lengths smooth_windows = done ++ rest
         ∧ Forall2 keyed rows done)
    ∧ (∀ g', snd sweep = Ok g' →
         Forall2 keyed rows (sweep_grid segment_lengths smooth_windows)
         ∧ length rows = length segment_lengths * length smooth_windows
         ∧ ∀ i j seg_len w,
             segment_lengths !! i = Some seg_len → smooth_windows !! j = Some w →
             ∃ mq sq ms ss,
               rows !! (i * length smooth_windows + j)
               = Some (DataRow seg_len w mq sq ms ss))
    ∧ (valid_sweep P states num_steps smooth_windows runs →
       ∃ g', snd sweep = Ok g').
Proof.
  intros sweep. unfold parameter_sweep in sweep.
  destruct sweep as [file outcome] eqn:Hsweep. subst sweep.
  pose proof (sweep_segments_rows _ _ _ _ _ _ _ _ _ _ _ Hsweep)
    as (rows & done & rest & -> & Hgrid & Hrows & Hrest).
  exists rows. simpl. split_and!; [done | by exists done, rest | |].
  - intros g' ->. rewrite (Hrest g' eq_refl), app_nil_r in Hgrid. subst done.
    split_and!; [done | |].
    + apply Forall2_length in Hrows. by rewrite Hrows, sweep_grid_length.
    + intros i j seg w Hseg Hw.
      pose proof (sweep_grid_lookup _ _ _ _ _ _ Hseg Hw) as Hcell.
      destruct (Forall2_lookup_r _ _ _ _ _ Hrows Hcell) as (row & Hrow & Hkey).
      apply keyed_data_row in Hkey as (mq & sq & ms & ss & ->). eauto.
  - intros (Hne & Hnz & Hlen & HP & Hn & Hruns & Hws).
    destruct (sweep_segments_total sqrt P states num_steps runs segment_lengths
                smooth_windows [sweep_header] g) as (file' & g' & Htotal); [done..|].
    rewrite Htotal in Hsweep. injection Hsweep as _ <-. eauto.
Qed.

Lemma sweep_rows_follow_grid_witness :
  valid_sweep [[1 # 2; 1 # 2]; [1 # 4; 3 # 4]]%Q [500; 1000]%Q 2 [1; 2]%Z 2
  ∧ ∃ g', snd (parameter_sweep (λ x, x) [[1 # 2; 1 # 2]; [1 # 4; 3 # 4]]%Q
                 [500; 1000]%Q 2 [2; 4]%Q [1; 2]%Z 2 (Rng (λ _, 3 # 5)%Q 0))
          = Ok g'.
Proof.
  assert (Hvalid : valid_sweep [[1 # 2; 1 # 2]; [1 # 4; 3 # 4]]%Q
                     [500; 1000]%Q 2 [1; 2]%Z 2).
  { unfold valid_sweep.
    split_and!; [discriminate | repeat constructor; discriminate
               | repeat constructor | simpl; lia | lia | lia
               | repeat constructor; lia]. }
  split; [exact Hvalid|].
  destruct (sweep_rows_follow_grid (λ x, x) [[1 # 2; 1 # 2]; [1 # 4; 3 # 4]]%Q
              [500; 1000]%Q 2 [2; 4]%Q [1; 2]%Z 2 (Rng (λ _, 3 # 5)%Q 0))
    as (rows & _ & _ & _ & Hreturns).
  exact (Hreturns Hvalid).
Defined.

(** ** Concrete scenarios *)

(** A constant trace: every download takes exactly one segment length, the
    buffer covers it, and nothing stalls. *)
Example constant_trace_never_stalls :
  simulate_playback [1000; 1000; 1000; 1000]%Q 2 1 = Ok (4000 # 4, 0)%Q.
Proof. reflexivity. Qed.

Example two_sample_trace_never_stalls :
  simulate_playback [500; 2000]%Q 2 1 = Ok (2500 # 2, 0)%Q.
Proof. reflexivity. Qed.

(** A drop in throughput below the smoothed estimate stalls the player: the
    second download takes 1250 * 2 / 500 = 5 seconds against 4 buffered. *)
Example throughput_drop_stalls :
  ∃ avg stall, simulate_playback [2000; 500]%Q 2 2 = Ok (avg, stall)
               ∧ (stall == 1)%Q ∧ (avg == 1625)%Q.
Proof. eexists _, _. split; [reflexivity|]. split; reflexivity. Qed.

(** Three steps of the default chain with the draws 0.75, 0.95, 0.05. *)
Example default_chain_three_steps :
  let P := [[7 # 10; 2 # 10; 1 # 10]; [1 # 10; 8 # 10; 1 # 10];
            [1 # 10; 3 # 10; 6 # 10]]%Q in
  let draws (n : nat) : Q :=
    match n with 0 => (3 # 4)%Q | 1 => (19 # 20)%Q | _ => (1 # 20)%Q end in
  simulate_throughput 3 P [500; 1000; 2000]%Q (Rng draws 0)
  = Ok ([500; 1000; 2000]%Q, Rng draws 3).
Proof. reflexivity. Qed.

(** * Further properties of the simulator *)

(** ** The smoothed estimate at the edges *)

Lemma slice_empty {A} (l : list A) (lo hi : nat) :
  hi ≤ lo → Py.slice l (Z.of_nat lo) (Z.of_nat hi) = [].
Proof.
  intros Hle. unfold Py.slice, Py.slice_index.
  destruct (Z.ltb_spec (Z.of_nat lo) 0); [lia|].
  destruct (Z.ltb_spec (Z.of_nat hi) 0); [lia|].
  rewrite !Nat2Z.id.
  replace (Nat.min hi (length l) - Nat.min lo (length l)) with 0 by lia.
  apply take_0.
Qed.

Lemma smoothed_raises_without_window (trace : list Q) (i : nat) (window : Z) :
  (window ≤ 0)%Z →
  get_smoothed_throughput trace (Z.of_nat i) window = Raise StatisticsError.
Proof.
  intros Hw. unfold get_smoothed_throughput.
  set (start := Z.max 0 (Z.of_nat i - window + 1)).
  replace start with (Z.of_nat (Z.to_nat start)) by (unfold start; lia).
  replace (Z.of_nat i + 1)%Z with (Z.of_nat (S i)) by lia.
  rewrite slice_empty; [done|]. unfold start. lia.
Qed.

(** X1. A window of zero or less leaves nothing to average: the call raises
    [StatisticsError] at every index from 0 on, whatever the trace. *)
Theorem smoothed_nonpositive_window_raises (trace : list Q) (i : nat) (window : Z) :
  (window ≤ 0)%Z →
  get_smoothed_throughput trace (Z.of_nat i) window = Raise StatisticsError.
Proof. apply smoothed_raises_without_window. Qed.

Lemma smoothed_nonpositive_window_raises_witness :
  (0 ≤ 0)%Z ∧
  get_smoothed_throughput [500; 1000]%Q (Z.of_nat 1) 0 = Raise StatisticsError.
Proof.
  split; [lia|]. apply (smoothed_nonpositive_window_raises [500; 1000]%Q 1 0). lia.
Defined.

(** X2. A window longer than the history is clamped at the start of the trace:
    the estimate is the mean of [trace[0..i]]. *)
Theorem smoothed_window_clamps_at_start (trace : list Q) (i : nat) (window : Z) :
  i < length trace → (Z.of_nat i + 1 ≤ window)%Z →
  get_smoothed_throughput trace (Z.of_nat i) window = Py.mean (take (S i) trace).
Proof.
  intros Hi Hw. unfold get_smoothed_throughput.
  replace (Z.max 0 (Z.of_nat i - window + 1)) with (Z.of_nat 0) by lia.
  replace (Z.of_nat i + 1)%Z with (Z.of_nat (S i)) by lia.
  rewrite slice_in_range by lia. by rewrite Nat.sub_0_r, drop_0.
Qed.

Lemma smoothed_window_clamps_at_start_witness :
  1 < length [500; 1000; 2000]%Q ∧ (Z.of_nat 1 + 1 ≤ 7)%Z ∧
  get_smoothed_throughput [500; 1000; 2000]%Q (Z.of_nat 1) 7
  = Py.mean (take 2 [500; 1000; 2000]%Q).
Proof.
  split; [simpl; lia|]. split; [lia|].
  apply (smoothed_window_clamps_at_start [500; 1000; 2000]%Q 1 7); [simpl; lia | lia].
Defined.

(** X3. An index past the end of the trace raises no [IndexError]: the slice is
    clamped, and the estimate is the mean of what is left of the trace from
    the start of the window on. *)
Theorem smoothed_index_past_end (trace : list Q) (i : nat) (window : Z) :
  length trace ≤ i → (1 ≤ window)%Z →
  get_smoothed_throughput trace (Z.of_nat i) window
  = Py.mean (drop (window_start i window) trace).
Proof.
  intros Hi Hw. unfold get_smoothed_throughput, window_start.
  set (start := Z.max 0 (Z.of_nat i - window + 1)).
  assert (Hs : (0 ≤ start ≤ Z.of_nat i)%Z) by (unfold start; lia).
  unfold Py.slice, Py.slice_index.
  destruct (Z.ltb_spec start 0); [lia|].
  destruct (Z.ltb_spec (Z.of_nat i + 1) 0); [lia|].
  replace (Nat.min (Z.to_nat (Z.of_nat i + 1)) (length trace)) with (length trace) by lia.
  destruct (Nat.le_gt_cases (length trace) (Z.to_nat start)) as [Hge|Hlt].
  - rewrite Nat.min_r by lia. rewrite Nat.sub_diag, take_0.
    by rewrite drop_ge.
  - rewrite Nat.min_l by lia. f_equal. apply take_ge. rewrite length_drop. lia.
Qed.

Lemma smoothed_index_past_end_witness :
  length [500; 1000]%Q ≤ 5 ∧ (1 ≤ 5)%Z ∧
  get_smoothed_throughput [500; 1000]%Q (Z.of_nat 5) 5
  = Py.mean (drop (window_start 5 5) [500; 1000]%Q).
Proof.
  split; [simpl; lia|]. split; [lia|].
  apply (smoothed_index_past_end [500; 1000]%Q 5 5); [simpl; lia | lia].
Defined.

Lemma total_bounds (xs : list Q) (lo hi : Q) :
  Forall (λ x, lo <= x <= hi)%Q xs →
  (lo * inject_Z (Z.of_nat (length xs)) <= total xs
   <= hi * inject_Z (Z.of_nat (length xs)))%Q.
Proof.
  induction 1 as [|x xs [Hlo Hhi] _ IH]; unfold total in *.
  - change (inject_Z (Z.of_nat (length (@nil Q)))) with 0%Q.
    change (foldr Qplus 0 [])%Q with 0%Q. lra.
  - change (length (x :: xs)) with (S (length xs)).
    rewrite Nat2Z.inj_succ. unfold Z.succ. rewrite inject_Z_plus.
    change (foldr Qplus 0 (x :: xs))%Q with (x + foldr Qplus 0 xs)%Q.
    change (inject_Z 1) with 1%Q. lra.
Qed.

Lemma length_pos_Q {A} (xs : list A) :
  xs ≠ [] → (0 < inject_Z (Z.of_nat (length xs)))%Q.
Proof.
  intros Hne. change 0%Q with (inject_Z 0). rewrite <- Zlt_Qlt.
  destruct xs; [done | simpl; lia].
Qed.

(** A mean lies between any two bounds of the data. *)
Lemma arith_mean_bounds (xs : list Q) (q lo hi : Q) :
  arith_mean_of xs q → Forall (λ x, lo <= x <= hi)%Q xs → (lo <= q <= hi)%Q.
Proof.
  intros [Hne Hq] Hall. pose proof (total_bounds xs lo hi Hall) as [Hl Hh].
  pose proof (length_pos_Q xs Hne) as Hn. rewrite <- Hq in Hl, Hh.
  split; eapply Qmult_lt_0_le_reg_r; eauto.
Qed.

Lemma inclusive_window_elem (trace : list Q) (lo hi : nat) (x : Q) :
  x ∈ inclusive_window trace lo hi →
  ∃ k, lo ≤ k ∧ k ≤ hi ∧ trace !! k = Some x.
Proof.
  unfold inclusive_window. intros H.
  apply list_elem_of_omap in H as (k & Hk & Hx).
  apply elem_of_seq in Hk. exists k. split_and!; [lia | lia | done].
Qed.

Lemma smoothed_within_sample_bounds_aux (trace : list Q) (i : nat) (window : Z)
    (lo hi : Q) :
  i < length trace → (1 ≤ window)%Z →
  Forall (λ x, lo <= x <= hi)%Q trace →
  ∃ q, get_smoothed_throughput trace (Z.of_nat i) window = Ok q
       ∧ (lo <= q <= hi)%Q.
Proof.
  intros Hi Hw Hall. destruct (smoothed_ok trace i window Hi Hw) as (q & Hq & Hmean).
  exists q. split; [done|]. eapply arith_mean_bounds; [exact Hmean|].
  apply Forall_forall. intros x Hx.
  apply inclusive_window_elem in Hx as (k & _ & _ & Hk).
  apply (proj1 (Forall_forall _ _) Hall). by eapply list_elem_of_lookup_2.
Qed.

(** X4. The estimate lies between any lower and upper bound of the samples. *)
Theorem smoothed_within_sample_bounds (trace : list Q) (i : nat) (window : Z)
    (lo hi : Q) :
  i < length trace → (1 ≤ window)%Z →
  Forall (λ x, lo <= x <= hi)%Q trace →
  ∃ q, get_smoothed_throughput trace (Z.of_nat i) window = Ok q
       ∧ (lo <= q <= hi)%Q.
Proof. apply smoothed_within_sample_bounds_aux. Qed.

Lemma smoothed_within_sample_bounds_witness :
  2 < length [500; 1000; 2000]%Q ∧ (1 ≤ 2)%Z ∧
  Forall (λ x, 500 <= x <= 2000)%Q [500; 1000; 2000]%Q ∧
  ∃ q, get_smoothed_throughput [500; 1000; 2000]%Q (Z.of_nat 2) 2 = Ok q
       ∧ (500 <= q <= 2000)%Q.
Proof.
  assert (Hall : Forall (λ x, 500 <= x <= 2000)%Q [500; 1000; 2000]%Q).
  { repeat constructor; discriminate. }
  split; [simpl; lia|]. split; [lia|]. split; [exact Hall|].
  apply (smoothed_within_sample_bounds [500; 1000; 2000]%Q 2 2 500 2000);
    [simpl; lia | lia | exact Hall].
Defined.

(** ** Invariants of the playback loop *)

Lemma playback_body_inv trace seg w st i bw st' :
  playback_body trace seg w st i bw = Ok st' →
  ∃ q, get_smoothed_throughput trace (Z.of_nat i) w = Ok q ∧ ¬ (bw == 0)%Q
    ∧ (((q * seg / bw <= buffer_sec st)%Q
        ∧ st' = PlaybackState (buffer_sec st - q * seg / bw + seg)%Q (total_stall st))
       ∨ ((buffer_sec st < q * seg / bw)%Q
          ∧ st' = PlaybackState (0 + seg)%Q
                    (total_stall st + (q * seg / bw - buffer_sec st))%Q)).
Proof.
  unfold playback_body. intros H.
  apply bind_inv_Ok in H as (q & Hq & H).
  apply bind_inv_Ok in H as (dt & Hdt & H).
  apply truediv_Ok in Hdt as [Hnz ->]. simpl in H.
  exists q. split; [done|]. split; [done|].
  destruct (Qle_bool _ (buffer_sec st)) eqn:E; injection H as <-; simpl.
  - left. by apply Qle_bool_iff in E.
  - right. by apply Qle_bool_false in E.
Qed.

Lemma playback_loop_stall_nonneg trace seg w st items st' :
  playback_loop trace seg w st items = Ok st' →
  (0 <= total_stall st)%Q → (total_stall st <= total_stall st')%Q.
Proof.
  revert st. induction items as [|[i bw] items IH]; intros st H Hst; simpl in H.
  - injection H as <-. lra.
  - apply bind_inv_Ok in H as (st1 & Hbody & Hloop).
    apply playback_body_inv in Hbody as (q & _ & _ & [[Hle ->]|[Hlt ->]]).
    + apply IH in Hloop; simpl in *; lra.
    + apply IH in Hloop; simpl in *; lra.
Qed.

Lemma playback_stall_nonneg (trace : list Q) (segment_length : Q)
    (smooth_window : Z) (avg stall : Q) :
  simulate_playback trace segment_length smooth_window = Ok (avg, stall) →
  (0 <= stall)%Q.
Proof.
  unfold simulate_playback. intros H.
  apply bind_inv_Ok in H as (st & Hst & H).
  apply bind_inv_Ok in H as (qs & _ & H).
  apply bind_inv_Ok in H as (avg' & _ & H). injection H as _ <-.
  apply playback_loop_stall_nonneg in Hst; simpl in *; lra.
Qed.

(** X5. The total stall time of a returned outcome is never negative. *)
Theorem stall_time_never_negative (trace : list Q) (segment_length : Q)
    (smooth_window : Z) (avg stall : Q) :
  simulate_playback trace segment_length smooth_window = Ok (avg, stall) →
  (0 <= stall)%Q.
Proof. apply playback_stall_nonneg. Qed.

Lemma stall_time_never_negative_witness :
  ∃ avg stall,
    simulate_playback [2000; 500]%Q 2 2 = Ok (avg, stall) ∧ (0 <= stall)%Q.
Proof.
  eexists _, _. split; [reflexivity|].
  eapply (stall_time_never_negative [2000; 500]%Q 2 2). reflexivity.
Defined.

(** X6. After every iteration the buffer holds at least one segment length. *)
Theorem buffer_holds_a_segment_after_each_step (trace : list Q) (segment_length : Q)
    (smooth_window : Z) (st st' : playback_state) (items : list (nat * Q)) :
  items ≠ [] →
  playback_loop trace segment_length smooth_window st items = Ok st' →
  (segment_length <= buffer_sec st')%Q.
Proof.
  revert st. induction items as [|[i bw] items IH]; intros st Hne H; [done|].
  simpl in H. apply bind_inv_Ok in H as (st1 & Hbody & Hloop).
  destruct items as [|item items].
  - simpl in Hloop. injection Hloop as <-.
    apply playback_body_inv in Hbody as (q & _ & _ & [[Hle ->]|[Hlt ->]]);
      simpl; lra.
  - by apply (IH st1).
Qed.

Lemma buffer_holds_a_segment_after_each_step_witness :
  Py.enumerate [2000; 500]%Q ≠ [] ∧
  ∀ st', playback_loop [2000; 500]%Q 2 2 (PlaybackState 4 0) (Py.enumerate [2000; 500]%Q)
         = Ok st' → (2 <= buffer_sec st')%Q.
Proof.
  split; [discriminate|]. intros st'.
  apply (buffer_holds_a_segment_after_each_step [2000; 500]%Q 2 2 (PlaybackState 4 0) st').
  discriminate.
Defined.

(** X7. A non-positive window makes [simulate_playback] raise on every non-empty
    trace, before any division. *)
Theorem playback_nonpositive_window_raises (trace : list Q) (segment_length : Q)
    (smooth_window : Z) :
  trace ≠ [] → (smooth_window ≤ 0)%Z →
  simulate_playback trace segment_length smooth_window = Raise StatisticsError.
Proof.
  intros Hne Hw. destruct trace as [|bw trace]; [done|].
  unfold simulate_playback, Py.enumerate. simpl. unfold playback_body.
  change 0%Z with (Z.of_nat 0).
  by rewrite (smoothed_raises_without_window (bw :: trace) 0 smooth_window Hw).
Qed.

Lemma playback_nonpositive_window_raises_witness :
  [500; 0]%Q ≠ [] ∧ (0 ≤ 0)%Z ∧
  simulate_playback [500; 0]%Q 2 0 = Raise StatisticsError.
Proof.
  split; [discriminate|]. split; [lia|].
  apply (playback_nonpositive_window_raises [500; 0]%Q 2 0); [discriminate | lia].
Defined.

Lemma smoothed_Ok_window trace i w q :
  i < length trace →
  get_smoothed_throughput trace (Z.of_nat i) w = Ok q → (1 ≤ w)%Z.
Proof.
  intros Hi Hq. destruct (Z.le_gt_cases 1 w) as [|Hw]; [done|].
  rewrite smoothed_raises_without_window in Hq by lia. discriminate.
Qed.

Lemma playback_average_bounds (trace : list Q) (segment_length : Q)
    (smooth_window : Z) (avg stall lo hi : Q) :
  simulate_playback trace segment_length smooth_window = Ok (avg, stall) →
  Forall (λ x, lo <= x <= hi)%Q trace → (lo <= avg <= hi)%Q.
Proof.
  unfold simulate_playback. intros H Hall.
  apply bind_inv_Ok in H as (st & _ & H).
  apply bind_inv_Ok in H as (qs & Hqs & H).
  apply bind_inv_Ok in H as (avg' & Havg & H). injection H as <- _.
  apply result_mapM_inv in Hqs. unfold Py.range in Hqs. rewrite Nat2Z.id in Hqs.
  destruct (mean_ok qs) as (avg2 & Havg2 & Hmean).
  { intros ->. discriminate. }
  assert (avg2 = avg') as -> by congruence.
  eapply arith_mean_bounds; [exact Hmean|].
  apply Forall_forall. intros q Hq.
  apply list_elem_of_lookup in Hq as [k Hk].
  destruct (Forall2_lookup_r _ _ _ _ _ Hqs Hk) as (i & Hi & Hsm).
  apply lookup_seq in Hi as [-> Hlt]. simpl in Hsm.
  pose proof (smoothed_Ok_window _ _ _ _ Hlt Hsm) as Hw.
  destruct (smoothed_within_sample_bounds_aux trace k smooth_window lo hi Hlt Hw Hall)
    as (q' & Hq' & Hb).
  congruence.
Qed.

(** X8. The average bitrate of a returned outcome lies between any lower and
    upper bound of the samples. *)
Theorem average_within_sample_bounds (trace : list Q) (segment_length : Q)
    (smooth_window : Z) (avg stall lo hi : Q) :
  simulate_playback trace segment_length smooth_window = Ok (avg, stall) →
  Forall (λ x, lo <= x <= hi)%Q trace → (lo <= avg <= hi)%Q.
Proof. apply playback_average_bounds. Qed.

Lemma average_within_sample_bounds_witness :
  ∃ avg stall,
    simulate_playback [2000; 500]%Q 2 2 = Ok (avg, stall)
    ∧ Forall (λ x, 500 <= x <= 2000)%Q [2000; 500]%Q
    ∧ (500 <= avg <= 2000)%Q.
Proof.
  assert (Hall : Forall (λ x, 500 <= x <= 2000)%Q [2000; 500]%Q).
  { repeat constructor; discriminate. }
  eexists _, _. split; [reflexivity|]. split; [exact Hall|].
  eapply (average_within_sample_bounds [2000; 500]%Q 2 2); [reflexivity | exact Hall].
Defined.

(** ** More on the chain sampler *)

Lemma sampler_loop_add P states n m st :
  sampler_loop P states (n + m) st
  = sampler_loop P states n st ≫= sampler_loop P states m.
Proof.
  revert st. induction n as [|n IH]; intros st; simpl; [done|].
  destruct (sampler_body P states st) as [st1|e]; simpl; [apply IH | done].
Qed.

(** What [n] iterations do to the state, whatever the matrix. *)
Lemma sampler_loop_emits P states n st st' :
  sampler_loop P states n st = Ok st' →
  ∃ emitted, trace_so_far st' = trace_so_far st ++ emitted
    ∧ length emitted = n ∧ Forall (λ v, v ∈ states) emitted
    ∧ generator st'
      = Rng (draws (generator st)) (position (generator st) + n).
Proof.
  revert st. induction n as [|n IH]; intros st H.
  - injection H as <-. exists []. rewrite app_nil_r, rng_at_start. by split_and!.
  - simpl in H. apply bind_inv_Ok in H as (st1 & Hbody & Hloop).
    apply sampler_body_Ok in Hbody as (v & row & Hv & _ & _ & Htr1 & Hg1).
    destruct (IH st1 Hloop) as (emitted & Htr & Hlen & Hall & Hg).
    exists (v :: emitted). split_and!.
    + rewrite Htr, Htr1, <- app_assoc. reflexivity.
    + simpl. lia.
    + constructor; [by eapply list_elem_of_lookup_2 | done].
    + rewrite Hg, Hg1. simpl. f_equal. lia.
Qed.

Lemma simulate_throughput_emits num_steps P states g trace g' :
  simulate_throughput num_steps P states g = Ok (trace, g') →
  length trace = Z.to_nat num_steps ∧ Forall (λ v, v ∈ states) trace
  ∧ g' = Rng (draws g) (position g + Z.to_nat num_steps).
Proof.
  intros H. apply simulate_throughput_inv in H as [c Hloop].
  apply sampler_loop_emits in Hloop as (emitted & Htr & Hlen & Hall & Hg).
  simpl in *. by subst.
Qed.

(** X14. Every sample of a returned trace is one of the states, whatever the
    shape of the matrix; the generator has advanced by one draw per step. *)
Theorem trace_samples_are_states (num_steps : Z) (P : list (list Q))
    (states : list Q) (g : rng) (trace : list Q) (g' : rng) :
  simulate_throughput num_steps P states g = Ok (trace, g') →
  Forall (λ v, v ∈ states) trace
  ∧ draws g' = draws g ∧ position g' = position g + Z.to_nat num_steps.
Proof.
  intros H. apply simulate_throughput_emits in H as (_ & Hall & ->). by split_and!.
Qed.

Lemma trace_samples_are_states_witness :
  ∃ trace g',
    simulate_throughput 3 [[0; 0; 1]; []; [1]]%Q [500; 1000; 2000]%Q
      (Rng (λ _, 1 # 2)%Q 0) = Ok (trace, g')
    ∧ Forall (λ v, v ∈ [500; 1000; 2000]%Q) trace
    ∧ draws g' = (λ _, 1 # 2)%Q ∧ position g' = 0 + Z.to_nat 3.
Proof.
  eexists _, _. split; [reflexivity|].
  eapply (trace_samples_are_states 3 [[0; 0; 1]; []; [1]]%Q [500; 1000; 2000]%Q
            (Rng (λ _, 1 # 2)%Q 0)).
  reflexivity.
Defined.

(** X15. Sampling fewer steps from the same generator gives a prefix: when the
    sampler returns for [m] steps it returns for every [n] between 0 and
    [m], with the first [n] samples of the longer trace. *)
Theorem shorter_run_is_prefix (n m : Z) (P : list (list Q)) (states : list Q)
    (g : rng) (trace : list Q) (g' : rng) :
  simulate_throughput m P states g = Ok (trace, g') →
  (0 ≤ n ≤ m)%Z →
  simulate_throughput n P states g
  = Ok (take (Z.to_nat n) trace, Rng (draws g) (position g + Z.to_nat n)).
Proof.
  intros H Hn. apply simulate_throughput_inv in H as [c Hloop].
  replace (Z.to_nat m) with (Z.to_nat n + (Z.to_nat m - Z.to_nat n)) in Hloop by lia.
  rewrite sampler_loop_add in Hloop.
  apply bind_inv_Ok in Hloop as (st1 & Hfirst & Hrest).
  unfold simulate_throughput. rewrite range_length, Hfirst, bind_Ok.
  apply sampler_loop_emits in Hfirst as (em1 & Htr1 & Hlen1 & _ & Hg1).
  apply sampler_loop_emits in Hrest as (em2 & Htr2 & _ & _ & _).
  simpl in *. rewrite Hg1, Htr2, Htr1.
  by rewrite take_app_length' by done.
Qed.

Lemma shorter_run_is_prefix_witness :
  ∃ trace g',
    simulate_throughput 3 [[1 # 2; 1 # 2]; [1 # 4; 3 # 4]]%Q [500; 1000]%Q
      (Rng (λ _, 3 # 5)%Q 0) = Ok (trace, g')
    ∧ (0 ≤ 2 ≤ 3)%Z
    ∧ simulate_throughput 2 [[1 # 2; 1 # 2]; [1 # 4; 3 # 4]]%Q [500; 1000]%Q
        (Rng (λ _, 3 # 5)%Q 0)
      = Ok (take (Z.to_nat 2) trace, Rng (λ _, 3 # 5)%Q (0 + Z.to_nat 2)).
Proof.
  eexists _, _. split; [reflexivity|]. split; [lia|].
  eapply (shorter_run_is_prefix 2 3 [[1 # 2; 1 # 2]; [1 # 4; 3 # 4]]%Q [500; 1000]%Q
            (Rng (λ _, 3 # 5)%Q 0)); [reflexivity | lia].
Defined.

Lemma sampler_body_stays P states tr g v p rest :
  states !! 0 = Some v → P !! 0 = Some (p :: rest) →
  (draws g (position g) < p)%Q →
  sampler_body P states (SamplerState 0 tr g)
  = Ok (SamplerState 0 (tr ++ [v]) (Rng (draws g) (S (position g)))).
Proof.
  intros Hv Hrow Hdraw. apply sampler_body_Ok. exists v, (p :: rest). simpl.
  split_and!; [done | done | | done | done].
  apply transition_to. split_and!.
  - simpl. lia.
  - rewrite cum_prob_0. lra.
  - intros k Hk. lia.
Qed.

Lemma sampler_loop_stays P states n tr g v p rest :
  states !! 0 = Some v → P !! 0 = Some (p :: rest) →
  (∀ t, draws g t < p)%Q →
  sampler_loop P states n (SamplerState 0 tr g)
  = Ok (SamplerState 0 (tr ++ replicate n v) (Rng (draws g) (position g + n))).
Proof.
  intros Hv Hrow Hdraws. revert tr g Hdraws.
  induction n as [|n IH]; intros tr g Hdraws.
  - simpl. by rewrite app_nil_r, rng_at_start.
  - change (sampler_loop P states (S n) (SamplerState 0 tr g))
      with (sampler_body P states (SamplerState 0 tr g) ≫= sampler_loop P states n).
    rewrite (sampler_body_stays P states tr g v p rest) by done.
    rewrite bind_Ok, IH by done. simpl.
    rewrite <- app_assoc. do 2 f_equal. f_equal. lia.
Qed.

(** X16. State 0 is absorbing when the first entry of its row exceeds every draw
    (for draws in [0,1): when it is at least 1): the trace repeats
    [states[0]]. *)
Theorem absorbing_start_state (num_steps : Z) (P : list (list Q))
    (states : list Q) (g : rng) (v p : Q) (rest : list Q) :
  states !! 0 = Some v → P !! 0 = Some (p :: rest) →
  (∀ t, draws g t < p)%Q →
  simulate_throughput num_steps P states g
  = Ok (replicate (Z.to_nat num_steps) v,
        Rng (draws g) (position g + Z.to_nat num_steps)).
Proof.
  intros Hv Hrow Hdraws. unfold simulate_throughput.
  rewrite range_length.
  by rewrite (sampler_loop_stays P states _ [] g v p rest).
Qed.

Lemma absorbing_start_state_witness :
  [500; 1000]%Q !! 0 = Some 500%Q
  ∧ [[1; 0]; [1 # 2; 1 # 2]]%Q !! 0 = Some [1; 0]%Q
  ∧ (∀ t : nat, (λ _ : nat, 3 # 5) t < 1)%Q
  ∧ simulate_throughput 3 [[1; 0]; [1 # 2; 1 # 2]]%Q [500; 1000]%Q
      (Rng (λ _, 3 # 5)%Q 0)
    = Ok (replicate (Z.to_nat 3) 500%Q, Rng (λ _, 3 # 5)%Q (0 + Z.to_nat 3)).
Proof.
  split; [reflexivity|]. split; [reflexivity|]. split; [intros t; reflexivity|].
  apply (absorbing_start_state 3 [[1; 0]; [1 # 2; 1 # 2]]%Q [500; 1000]%Q
           (Rng (λ _, 3 # 5)%Q 0) 500 1 [0%Q]);
    [reflexivity | reflexivity | intros t; reflexivity].
Defined.

(** ** Monte Carlo trials *)

Lemma rng_at_offset g n m :
  Rng (draws (Rng (draws g) (position g + n)))
      (position (Rng (draws g) (position g + n)) + m)
  = Rng (draws g) (position g + (n + m)).
Proof. simpl. f_equal. lia. Qed.

(** What [n] trials append: one outcome per trial, each the replay of a
    trace sampled from the draws that follow those of the earlier trials. *)
Lemma monte_carlo_loop_trials P states num_steps seg w n results g data g' :
  monte_carlo_loop P states num_steps seg w n results g = Ok (data, g') →
  ∃ new, data = results ++ new ∧ length new = n
    ∧ g' = Rng (draws g) (position g + n * Z.to_nat num_steps)
    ∧ ∀ k o, new !! k = Some o →
        ∃ trace g1,
          simulate_throughput num_steps P states
            (Rng (draws g) (position g + k * Z.to_nat num_steps)) = Ok (trace, g1)
          ∧ simulate_playback trace seg w = Ok o.
Proof.
  revert results g. induction n as [|n IH]; intros results g H; simpl in H.
  - injection H as <- <-. exists []. rewrite app_nil_r. split_and!; [done | done | |done].
    simpl. by rewrite rng_at_start.
  - apply bind_inv_Ok in H as ([trace g1] & Hsim & H).
    apply bind_inv_Ok in H as (o & Hplay & H).
    apply IH in H as (new & -> & Hlen & -> & Hnew).
    pose proof (simulate_throughput_emits _ _ _ _ _ _ Hsim) as (_ & _ & ->).
    exists (o :: new). split_and!.
    + by rewrite <- app_assoc.
    + simpl. lia.
    + simpl. f_equal. lia.
    + intros [|k] o' Hk; simpl in Hk.
      * injection Hk as <-. exists trace. eexists. split; [|done].
        simpl. rewrite rng_at_start. exact Hsim.
      * destruct (Hnew k o' Hk) as (trace' & g2 & Hsim' & Hplay').
        exists trace', g2. split; [|done]. rewrite <- Hsim'. f_equal.
        simpl. f_equal. lia.
Qed.

(** X17. [monte_carlo] returns one outcome per run and consumes
    [runs * num_steps] draws. *)
Theorem monte_carlo_one_outcome_per_run (P : list (list Q)) (states : list Q)
    (num_steps : Z) (segment_length : Q) (smooth_window : Z) (runs : Z) (g : rng)
    (data : list (Q * Q)) (g' : rng) :
  monte_carlo P states num_steps segment_length smooth_window runs g = Ok (data, g') →
  length data = Z.to_nat runs
  ∧ draws g' = draws g
  ∧ position g' = position g + Z.to_nat runs * Z.to_nat num_steps.
Proof.
  unfold monte_carlo. rewrite range_length. intros H.
  apply monte_carlo_loop_trials in H as (new & -> & Hlen & -> & _).
  by split_and!.
Qed.

Lemma monte_carlo_one_outcome_per_run_witness :
  ∃ data g',
    monte_carlo [[1 # 2; 1 # 2]; [1 # 4; 3 # 4]]%Q [500; 1000]%Q 2 2 2 3
      (Rng (λ _, 3 # 5)%Q 0) = Ok (data, g')
    ∧ length data = Z.to_nat 3
    ∧ draws g' = (λ _, 3 # 5)%Q
    ∧ position g' = 0 + Z.to_nat 3 * Z.to_nat 2.
Proof.
  eexists _, _. split; [vm_compute; reflexivity|].
  eapply (monte_carlo_one_outcome_per_run [[1 # 2; 1 # 2]; [1 # 4; 3 # 4]]%Q
            [500; 1000]%Q 2 2 2 3 (Rng (λ _, 3 # 5)%Q 0)).
  vm_compute; reflexivity.
Defined.

(** X18. The trials do not share draws: outcome [k] is the replay of the trace
    sampled from the generator advanced past the [k * num_steps] draws of
    the earlier trials. *)
Theorem monte_carlo_trials_use_fresh_draws (P : list (list Q)) (states : list Q)
    (num_steps : Z) (segment_length : Q) (smooth_window : Z) (runs : Z) (g : rng)
    (data : list (Q * Q)) (g' : rng) (k : nat) (outcome : Q * Q) :
  monte_carlo P states num_steps segment_length smooth_window runs g = Ok (data, g') →
  data !! k = Some outcome →
  ∃ trace g1,
    simulate_throughput num_steps P states
      (Rng (draws g) (position g + k * Z.to_nat num_steps)) = Ok (trace, g1)
    ∧ simulate_playback trace segment_length smooth_window = Ok outcome.
Proof.
  unfold monte_carlo. intros H Hk.
  apply monte_carlo_loop_trials in H as (new & -> & _ & _ & Hnew).
  by apply Hnew.
Qed.

Lemma monte_carlo_trials_use_fresh_draws_witness :
  ∃ data g' outcome,
    monte_carlo [[1 # 2; 1 # 2]; [1 # 4; 3 # 4]]%Q [500; 1000]%Q 2 2 2 3
      (Rng (λ _, 3 # 5)%Q 0) = Ok (data, g')
    ∧ data !! 1 = Some outcome
    ∧ ∃ trace g1,
        simulate_throughput 2 [[1 # 2; 1 # 2]; [1 # 4; 3 # 4]]%Q [500; 1000]%Q
          (Rng (λ _, 3 # 5)%Q (0 + 1 * Z.to_nat 2)) = Ok (trace, g1)
        ∧ simulate_playback trace 2 2 = Ok outcome.
Proof.
  eexists _, _, _. split; [vm_compute; reflexivity|]. split; [reflexivity|].
  eapply (monte_carlo_trials_use_fresh_draws [[1 # 2; 1 # 2]; [1 # 4; 3 # 4]]%Q
            [500; 1000]%Q 2 2 2 3 (Rng (λ _, 3 # 5)%Q 0));
    vm_compute; reflexivity.
Defined.

Lemma monte_carlo_raises_without_steps P states num_steps seg w runs g :
  (num_steps ≤ 0)%Z → (1 ≤ runs)%Z →
  monte_carlo P states num_steps seg w runs g = Raise StatisticsError.
Proof.
  intros Hn Hruns. unfold monte_carlo. rewrite range_length.
  destruct (Z.to_nat runs) as [|n] eqn:E; [lia|]. simpl.
  unfold simulate_throughput, Py.range.
  by replace (Z.to_nat num_steps) with 0 by lia.
Qed.

(** X19. Degenerate counts: without runs [monte_carlo] returns no outcome and
    leaves the generator untouched; with at least one run but no steps the
    empty trace makes the first replay raise [StatisticsError]. *)
Theorem monte_carlo_degenerate_counts (P : list (list Q)) (states : list Q)
    (num_steps : Z) (segment_length : Q) (smooth_window : Z) (runs : Z) (g : rng) :
  (runs ≤ 0)%Z ∨ (num_steps ≤ 0)%Z →
  ((runs ≤ 0)%Z →
   monte_carlo P states num_steps segment_length smooth_window runs g = Ok ([], g))
  ∧ ((1 ≤ runs)%Z → (num_steps ≤ 0)%Z →
     monte_carlo P states num_steps segment_length smooth_window runs g
     = Raise StatisticsError).
Proof.
  intros _. split.
  - intros Hruns. unfold monte_carlo, Py.range.
    by replace (Z.to_nat runs) with 0 by lia.
  - intros Hruns Hn. by apply monte_carlo_raises_without_steps.
Qed.

Lemma monte_carlo_degenerate_counts_witness :
  ((5 ≤ 0)%Z ∨ (0 ≤ 0)%Z)
  ∧ monte_carlo [[1%Q]] [500%Q] 0 2 3 5 (Rng (λ _, 1 # 2)%Q 0) = Raise StatisticsError.
Proof.
  split; [right; lia|].
  apply (monte_carlo_degenerate_counts [[1%Q]] [500%Q] 0 2 3 5 (Rng (λ _, 1 # 2)%Q 0));
    [right; lia | lia | lia].
Defined.

Lemma total_lower (xs : list Q) (lo : Q) :
  Forall (λ x, lo <= x)%Q xs → (lo * inject_Z (Z.of_nat (length xs)) <= total xs)%Q.
Proof.
  induction 1 as [|x xs Hlo _ IH]; unfold total in *.
  - change (inject_Z (Z.of_nat (length (@nil Q)))) with 0%Q.
    change (foldr Qplus 0 [])%Q with 0%Q. lra.
  - change (length (x :: xs)) with (S (length xs)).
    rewrite Nat2Z.inj_succ. unfold Z.succ. rewrite inject_Z_plus.
    change (foldr Qplus 0 (x :: xs))%Q with (x + foldr Qplus 0 xs)%Q.
    change (inject_Z 1) with 1%Q. lra.
Qed.

Lemma arith_mean_lower (xs : list Q) (q lo : Q) :
  arith_mean_of xs q → Forall (λ x, lo <= x)%Q xs → (lo <= q)%Q.
Proof.
  intros [Hne Hq] Hall. pose proof (total_lower xs lo Hall) as Hl.
  pose proof (length_pos_Q xs Hne) as Hn. rewrite <- Hq in Hl.
  eapply Qmult_lt_0_le_reg_r; eauto.
Qed.

Lemma monte_carlo_outcome_bounds P states num_steps seg w runs g data g' lo hi :
  monte_carlo P states num_steps seg w runs g = Ok (data, g') →
  Forall (λ v, lo <= v <= hi)%Q states →
  Forall (λ o : Q * Q, (lo <= o.1 <= hi)%Q ∧ (0 <= o.2)%Q) data.
Proof.
  unfold monte_carlo. intros H Hstates.
  apply monte_carlo_loop_trials in H as (new & -> & _ & _ & Hnew). simpl.
  apply Forall_lookup. intros k [avg stall] Hk.
  destruct (Hnew k _ Hk) as (trace & g1 & Hsim & Hplay).
  apply simulate_throughput_emits in Hsim as (_ & Hall & _). split; simpl.
  - eapply playback_average_bounds; [exact Hplay|].
    eapply Forall_impl; [exact Hall|]. intros v Hv.
    by apply (proj1 (Forall_forall _ _) Hstates).
  - by eapply playback_stall_nonneg.
Qed.

(** X20. Every outcome of a Monte Carlo run has an average bitrate between the
    smallest and the largest state, and a stall time that is not negative. *)
Theorem monte_carlo_outcomes_within_state_bounds (P : list (list Q))
    (states : list Q) (num_steps : Z) (segment_length : Q) (smooth_window : Z)
    (runs : Z) (g : rng) (data : list (Q * Q)) (g' : rng) (lo hi : Q) :
  monte_carlo P states num_steps segment_length smooth_window runs g = Ok (data, g') →
  Forall (λ v, lo <= v <= hi)%Q states →
  Forall (λ o : Q * Q, (lo <= o.1 <= hi)%Q ∧ (0 <= o.2)%Q) data.
Proof. apply monte_carlo_outcome_bounds. Qed.

Lemma monte_carlo_outcomes_within_state_bounds_witness :
  ∃ data g',
    monte_carlo [[1 # 2; 1 # 2]; [1 # 4; 3 # 4]]%Q [500; 1000]%Q 2 2 2 3
      (Rng (λ _, 3 # 5)%Q 0) = Ok (data, g')
    ∧ Forall (λ v, 500 <= v <= 1000)%Q [500; 1000]%Q
    ∧ Forall (λ o : Q * Q, (500 <= o.1 <= 1000)%Q ∧ (0 <= o.2)%Q) data.
Proof.
  assert (Hst : Forall (λ v, 500 <= v <= 1000)%Q [500; 1000]%Q).
  { repeat constructor; discriminate. }
  eexists _, _. split; [vm_compute; reflexivity|]. split; [exact Hst|].
  eapply (monte_carlo_outcomes_within_state_bounds [[1 # 2; 1 # 2]; [1 # 4; 3 # 4]]%Q
            [500; 1000]%Q 2 2 2 3 (Rng (λ _, 3 # 5)%Q 0));
    [vm_compute; reflexivity | exact Hst].
Defined.

(** ** More on the sweep *)

Lemma mean_Ok_arith (xs : list Q) (q : Q) : Py.mean xs = Ok q → arith_mean_of xs q.
Proof.
  intros H. destruct (mean_ok xs) as (q' & Hq' & Hmean).
  { intros ->. discriminate. }
  congruence.
Qed.

Lemma sweep_cell_inv sqrt P states num_steps runs seg w g row g' :
  sweep_cell sqrt P states num_steps runs seg w g = Ok (row, g') →
  ∃ data mq sq ms ss,
    monte_carlo P states num_steps seg w runs g = Ok (data, g')
    ∧ row = DataRow seg w mq sq ms ss
    ∧ arith_mean_of (map fst data) mq ∧ arith_mean_of (map snd data) ms
    ∧ Py.stdev sqrt (map fst data) = Ok sq ∧ Py.stdev sqrt (map snd data) = Ok ss.
Proof.
  unfold sweep_cell. intros H.
  apply bind_inv_Ok in H as ([data g1] & Hmc & H).
  apply bind_inv_Ok in H as (mq & Hmq & H). apply bind_inv_Ok in H as (sq & Hsq & H).
  apply bind_inv_Ok in H as (ms & Hms & H). apply bind_inv_Ok in H as (ss & Hss & H).
  injection H as <- <-. exists data, mq, sq, ms, ss.
  split_and!; [done | done | by apply mean_Ok_arith | by apply mean_Ok_arith | done | done].
Qed.

Lemma sweep_windows_Forall sqrt P states num_steps runs seg ws file g file' outcome
    (Φ : csv_row → Prop) :
  (∀ w g row g', sweep_cell sqrt P states num_steps runs seg w g = Ok (row, g') → Φ row) →
  sweep_windows sqrt P states num_steps runs seg ws file g = (file', outcome) →
  Forall Φ file → Forall Φ file'.
Proof.
  intros Hcell. revert file g. induction ws as [|w ws IH]; intros file g; simpl.
  - by intros [= <- <-].
  - destruct (sweep_cell sqrt P states num_steps runs seg w g) as [[row g1]|e] eqn:E.
    + intros H Hfile. eapply IH; [exact H|].
      apply Forall_app. split; [done|]. constructor; [by eapply Hcell | constructor].
    + by intros [= <- <-].
Qed.

Lemma sweep_segments_Forall sqrt P states num_steps runs segs ws file g file' outcome
    (Φ : csv_row → Prop) :
  (∀ seg w g row g',
     sweep_cell sqrt P states num_steps runs seg w g = Ok (row, g') → Φ row) →
  sweep_segments sqrt P states num_steps runs segs ws file g = (file', outcome) →
  Forall Φ file → Forall Φ file'.
Proof.
  intros Hcell. revert file g. induction segs as [|seg segs IH]; intros file g; simpl.
  - by intros [= <- <-].
  - destruct (sweep_windows sqrt P states num_steps runs seg ws file g)
      as [file1 [g1|e]] eqn:E.
    + intros H Hfile. eapply IH; [exact H|].
      eapply sweep_windows_Forall; [|exact E|done]. intros. by eapply Hcell.
    + intros [= <- <-] Hfile.
      eapply sweep_windows_Forall; [|exact E|done]. intros. by eapply Hcell.
Qed.

(** X21. Every data row the sweep writes, also before an exception, has a mean
    bitrate between the smallest and the largest state and a mean stall time
    that is not negative. *)
Theorem sweep_rows_within_state_bounds (sqrt : Q → Q) (P : list (list Q))
    (states : list Q) (num_steps : Z) (segment_lengths : list Q)
    (smooth_windows : list Z) (runs : Z) (g : rng) (lo hi : Q) :
  Forall (λ v, lo <= v <= hi)%Q states →
  Forall (row_within lo hi)
    (fst (parameter_sweep sqrt P states num_steps segment_lengths smooth_windows
            runs g)).
Proof.
  intros Hstates. unfold parameter_sweep.
  destruct (sweep_segments _ _ _ _ _ _ _ _ _) as [file outcome] eqn:E. simpl.
  eapply sweep_segments_Forall; [|exact E|by repeat constructor].
  intros seg w g0 row g' Hcell.
  apply sweep_cell_inv in Hcell as (data & mq & sq & ms & ss & Hmc & -> & Hmq & Hms & _).
  pose proof (monte_carlo_outcome_bounds _ _ _ _ _ _ _ _ _ lo hi Hmc Hstates) as Hdata.
  simpl. split.
  - eapply arith_mean_bounds; [exact Hmq|]. apply Forall_fmap.
    eapply Forall_impl; [exact Hdata|]. by intros o [Ho _].
  - eapply arith_mean_lower; [exact Hms|]. apply Forall_fmap.
    eapply Forall_impl; [exact Hdata|]. by intros o [_ Ho].
Qed.

Lemma sweep_rows_within_state_bounds_witness :
  Forall (λ v, 500 <= v <= 1000)%Q [500; 1000]%Q
  ∧ Forall (row_within 500 1000)
      (fst (parameter_sweep (λ x, x) [[1 # 2; 1 # 2]; [1 # 4; 3 # 4]]%Q
              [500; 1000]%Q 2 [2; 4]%Q [1; 2]%Z 2 (Rng (λ _, 3 # 5)%Q 0))).
Proof.
  assert (Hst : Forall (λ v, 500 <= v <= 1000)%Q [500; 1000]%Q).
  { repeat constructor; discriminate. }
  split; [exact Hst|].
  apply (sweep_rows_within_state_bounds (λ x, x) [[1 # 2; 1 # 2]; [1 # 4; 3 # 4]]%Q
           [500; 1000]%Q 2 [2; 4]%Q [1; 2]%Z 2 (Rng (λ _, 3 # 5)%Q 0) 500 1000).
  exact Hst.
Defined.

Lemma sweep_cell_generator sqrt P states num_steps runs seg w g row g' :
  sweep_cell sqrt P states num_steps runs seg w g = Ok (row, g') →
  g' = Rng (draws g) (position g + Z.to_nat runs * Z.to_nat num_steps).
Proof.
  intros H. apply sweep_cell_inv in H as (data & _ & _ & _ & _ & Hmc & _).
  unfold monte_carlo in Hmc. rewrite range_length in Hmc.
  by apply monte_carlo_loop_trials in Hmc as (_ & _ & _ & -> & _).
Qed.

Lemma sweep_windows_generator sqrt P states num_steps runs seg ws file g file' g' :
  sweep_windows sqrt P states num_steps runs seg ws file g = (file', Ok g') →
  g' = Rng (draws g)
         (position g + length ws * (Z.to_nat runs * Z.to_nat num_steps)).
Proof.
  revert file g. induction ws as [|w ws IH]; intros file g; simpl.
  - intros [= <- <-]. by rewrite rng_at_start.
  - destruct (sweep_cell sqrt P states num_steps runs seg w g) as [[row g1]|e] eqn:E;
      [|discriminate].
    intros H. apply IH in H as ->. apply sweep_cell_generator in E as ->.
    simpl. f_equal. lia.
Qed.

Lemma sweep_segments_generator sqrt P states num_steps runs segs ws file g file' g' :
  sweep_segments sqrt P states num_steps runs segs ws file g = (file', Ok g') →
  g' = Rng (draws g)
         (position g
          + length segs * length ws * (Z.to_nat runs * Z.to_nat num_steps)).
Proof.
  revert file g. induction segs as [|seg segs IH]; intros file g; simpl.
  - intros [= <- <-]. by rewrite rng_at_start.
  - destruct (sweep_windows sqrt P states num_steps runs seg ws file g)
      as [file1 [g1|e]] eqn:E; [|discriminate].
    intros H. apply IH in H as ->. apply sweep_windows_generator in E as ->.
    simpl. f_equal. lia.
Qed.

(** X22. A sweep that returns has consumed one draw per step of every run of
    every cell: [len(segment_lengths) * len(smooth_windows) * runs *
    num_steps] draws in all. *)
Theorem sweep_consumes_draws_per_cell (sqrt : Q → Q) (P : list (list Q))
    (states : list Q) (num_steps : Z) (segment_lengths : list Q)
    (smooth_windows : list Z) (runs : Z) (g g' : rng) :
  snd (parameter_sweep sqrt P states num_steps segment_lengths smooth_windows runs g)
  = Ok g' →
  draws g' = draws g
  ∧ position g'
    = position g
      + length segment_lengths * length smooth_windows
        * (Z.to_nat runs * Z.to_nat num_steps).
Proof.
  unfold parameter_sweep.
  destruct (sweep_segments _ _ _ _ _ _ _ _ _) as [file outcome] eqn:E. simpl.
  intros ->. by apply sweep_segments_generator in E as ->.
Qed.

Lemma sweep_consumes_draws_per_cell_witness :
  ∃ g',
    snd (parameter_sweep (λ x, x) [[1 # 2; 1 # 2]; [1 # 4; 3 # 4]]%Q
           [500; 1000]%Q 2 [2; 4]%Q [1; 2]%Z 2 (Rng (λ _, 3 # 5)%Q 0)) = Ok g'
    ∧ draws g' = (λ _, 3 # 5)%Q
    ∧ position g' = 0 + 2 * 2 * (Z.to_nat 2 * Z.to_nat 2).
Proof.
  eexists. split; [vm_compute; reflexivity|].
  eapply (sweep_consumes_draws_per_cell (λ x, x) [[1 # 2; 1 # 2]; [1 # 4; 3 # 4]]%Q
            [500; 1000]%Q 2 [2; 4]%Q [1; 2]%Z 2 (Rng (λ _, 3 # 5)%Q 0)).
  vm_compute; reflexivity.
Defined.

Lemma sweep_cell_needs_two_runs sqrt P states num_steps runs seg w g :
  (runs < 2)%Z → ∃ e, sweep_cell sqrt P states num_steps runs seg w g = Raise e.
Proof.
  intros Hruns. unfold sweep_cell.
  destruct (monte_carlo P states num_steps seg w runs g) as [[data g1]|e] eqn:E;
    [|by exists e].
  unfold monte_carlo in E. rewrite range_length in E.
  apply monte_carlo_loop_trials in E as (new & -> & Hlen & _ & _).
  rewrite bind_Ok. simpl.
  destruct new as [|o [|o' new]]; simpl in *; [eauto | eauto | lia].
Qed.

(** X23. The sweep needs at least two runs: with fewer, the first cell raises
    (in [statistics.mean] or [statistics.stdev] at the latest) and the file
    holds the header only. *)
Theorem sweep_needs_two_runs (sqrt : Q → Q) (P : list (list Q)) (states : list Q)
    (num_steps : Z) (segment_lengths : list Q) (smooth_windows : list Z)
    (runs : Z) (g : rng) :
  (runs < 2)%Z → segment_lengths ≠ [] → smooth_windows ≠ [] →
  ∃ e, parameter_sweep sqrt P states num_steps segment_lengths smooth_windows runs g
       = ([sweep_header], Raise e).
Proof.
  intros Hruns Hsegs Hws.
  destruct segment_lengths as [|seg segs]; [done|].
  destruct smooth_windows as [|w ws]; [done|].
  destruct (sweep_cell_needs_two_runs sqrt P states num_steps runs seg w g Hruns)
    as [e He].
  exists e. unfold parameter_sweep. simpl. by rewrite He.
Qed.

Lemma sweep_needs_two_runs_witness :
  (1 < 2)%Z ∧ [2%Q] ≠ [] ∧ [1%Z] ≠ [] ∧
  ∃ e, parameter_sweep (λ x, x) [[1 # 2; 1 # 2]; [1 # 4; 3 # 4]]%Q [500; 1000]%Q
         2 [2%Q] [1%Z] 1 (Rng (λ _, 3 # 5)%Q 0)
       = ([sweep_header], Raise e).
Proof.
  split; [lia|]. split; [discriminate|]. split; [discriminate|].
  apply (sweep_needs_two_runs (λ x, x) [[1 # 2; 1 # 2]; [1 # 4; 3 # 4]]%Q
           [500; 1000]%Q 2 [2%Q] [1%Z] 1 (Rng (λ _, 3 # 5)%Q 0));
    [lia | discriminate | discriminate].
Defined.

Lemma sweep_segments_no_windows sqrt P states num_steps runs segs file g :
  sweep_segments sqrt P states num_steps runs segs [] file g = (file, Ok g).
Proof. revert file g. induction segs as [|seg segs IH]; intros file g; simpl; [done | apply IH]. Qed.

(** X24. With no segment length or no window to try, the sweep writes the header
    only, draws nothing and returns, whatever the other arguments. *)
Theorem sweep_of_empty_grid (sqrt : Q → Q) (P : list (list Q)) (states : list Q)
    (num_steps : Z) (segment_lengths : list Q) (smooth_windows : list Z)
    (runs : Z) (g : rng) :
  segment_lengths = [] ∨ smooth_windows = [] →
  parameter_sweep sqrt P states num_steps segment_lengths smooth_windows runs g
  = ([sweep_header], Ok g).
Proof.
  intros [-> | ->]; unfold parameter_sweep; [done|].
  apply sweep_segments_no_windows.
Qed.

Lemma sweep_of_empty_grid_witness :
  ([2; 4]%Q = [] ∨ ([] : list Z) = [])
  ∧ parameter_sweep (λ x, x) [] [] 0 [2; 4]%Q [] 0 (Rng (λ _, 3 # 5)%Q 0)
    = ([sweep_header], Ok (Rng (λ _, 3 # 5)%Q 0)).
Proof.
  split; [by right|].
  apply (sweep_of_empty_grid (λ x, x) [] [] 0 [2; 4]%Q [] 0 (Rng (λ _, 3 # 5)%Q 0)).
  by right.
Defined.

(** ** The uncovered tail, in any arithmetic *)

(** The scan of the exact model is the scan above read in the rationals. *)
Lemma scan_row_exact (r cum : Q) (j : nat) (row : list Q) :
  scan_row r cum j row = scan_row_in Q Qplus Qlt_bool r cum j row.
Proof.
  revert cum j. induction row as [|p row IH]; intros cum j; simpl; [done|].
  by rewrite IH.
Qed.

(** The step of the exact model is the step above read in the rationals. *)
Lemma sampler_body_exact (P : list (list Q)) (states : list Q) (st : sampler_state) :
  sampler_body_in Q Q 0%Q Qplus Qlt_bool P states (sampler_state_exact st)
  = match sampler_body P states st with
    | Ok st' => Ok (sampler_state_exact st')
    | Raise e => Raise e
    end.
Proof.
  unfold sampler_body_in, sampler_body, sampler_state_exact, random_in, random. simpl.
  destruct (Py.getitem states (current st)) as [v|e]; simpl; [|done].
  destruct (Py.getitem P (current st)) as [row|e]; simpl; [|done].
  rewrite <- (scan_row_exact (draws (generator st) (position (generator st))) 0%Q 0 row).
  by destruct (scan_row _ _ _ row).
Qed.




